(** * Regular expressions: infix to postfix to syntax tree

    A shallow embedding of the two scripts of the repository,
    [shunting_yard_regex.py] and [shunting_yard_simp.py], and the
    properties their specification states about them.

    Python values are modelled as follows.
    - A [str] is the list of its Unicode code points ([N]); [len] is
      [length], [s[i]] is [get] (raising [IndexError] out of range) and
      [s[a:b]] is [slice].
    - A Python list used as a stack ([append] / [pop]) is a list whose
      head is the top of the stack; the snapshots that the trace takes
      with [stack.copy()] are in Python order, hence [rev].
    - A [while] loop over an index is a function with fuel that answers
      [OutOfFuel] when the fuel is exhausted; each such loop comes with
      the proof that the fuel it is started with is never exhausted.
    - An uncaught exception is the [Raise] outcome of the [result] monad. *)

From Stdlib Require Import List Bool Arith NArith Lia.
From Stdlib Require String Ascii.
Import ListNotations.
Import String.StringSyntax.
Delimit Scope string_scope with string.

Set Implicit Arguments.

(** ** Outcomes *)

Inductive exn : Type := IndexError.

Inductive result (A : Type) : Type :=
| Ok (a : A)
| Raise (e : exn)
| OutOfFuel.

Arguments Ok {A} a.
Arguments Raise {A} e.
Arguments OutOfFuel {A}.

Definition bind {A B : Type} (m : result A) (k : A -> result B) : result B :=
  match m with
  | Ok a => k a
  | Raise e => Raise e
  | OutOfFuel => OutOfFuel
  end.

Notation "x <- m ;; k" := (bind m (fun x => k))
  (at level 61, m at next level, right associativity).

(** ** Python strings *)

Definition char : Type := N.
Definition str : Type := list char.

Definition char_eqb (a b : char) : bool := N.eqb a b.

Fixpoint str_eqb (s t : str) : bool :=
  match s, t with
  | [], [] => true
  | a :: s', b :: t' => char_eqb a b && str_eqb s' t'
  | _, _ => false
  end.

(** [x in [a; b; ...]] on strings. *)
Definition str_in (x : str) (l : list str) : bool := existsb (str_eqb x) l.

(** [s[i]]; the indices of the scripts are never negative. *)
Definition get (s : str) (i : nat) : result char :=
  match nth_error s i with
  | Some c => Ok c
  | None => Raise IndexError
  end.

(** [s[a:b]] for non-negative [a] and [b]. *)
Definition slice (s : str) (a b : nat) : str := firstn (b - a) (skipn a s).

(** String literals of the scripts are written as Rocq strings and decoded
    from UTF-8, so that the literal ε is the single code point 949. *)
Fixpoint utf8_decode (bs : list N) : str :=
  match bs with
  | [] => []
  | b0 :: r0 =>
      if N.ltb b0 128 then b0 :: utf8_decode r0
      else if N.ltb b0 224 then
        match r0 with
        | b1 :: r1 => ((b0 - 192) * 64 + (b1 - 128))%N :: utf8_decode r1
        | _ => []
        end
      else if N.ltb b0 240 then
        match r0 with
        | b1 :: b2 :: r2 =>
            ((b0 - 224) * 4096 + (b1 - 128) * 64 + (b2 - 128))%N :: utf8_decode r2
        | _ => []
        end
      else
        match r0 with
        | b1 :: b2 :: b3 :: r3 =>
            ((b0 - 240) * 262144 + (b1 - 128) * 4096 + (b2 - 128) * 64 + (b3 - 128))%N
              :: utf8_decode r3
        | _ => []
        end
  end.

Definition py (s : String.string) : str :=
  utf8_decode (map Ascii.N_of_ascii (String.list_ascii_of_string s)).

Arguments py s%_string.

Definition backslash : char := 92%N.
Definition lparen : char := 40%N.
Definition rparen : char := 41%N.
Definition plus : char := 43%N.
Definition question : char := 63%N.
Definition star : char := 42%N.
Definition bar : char := 124%N.
Definition dot : char := 46%N.
Definition epsilon : char := 949%N.

(** [str.isalnum] of CPython for a single code point: the code points [c]
    for which [chr(c).isalpha()], [isdecimal()], [isdigit()] or
    [isnumeric()] holds, as maximal ranges (Unicode 14.0.0). *)
Definition alnum_ranges : list (N * N) :=
 [
  (48, 57); (65, 90); (97, 122); (170, 170); (178, 179); (181, 181); (185, 186); (188, 190);
   (192, 214); (216, 246); (248, 705); (710, 721); (736, 740); (748, 748); (750, 750); (880, 884);
   (886, 887); (890, 893); (895, 895); (902, 902); (904, 906); (908, 908); (910, 929); (931, 1013);
   (1015, 1153); (1162, 1327); (1329, 1366); (1369, 1369); (1376, 1416); (1488, 1514);
   (1519, 1522); (1568, 1610); (1632, 1641); (1646, 1647); (1649, 1747); (1749, 1749);
   (1765, 1766); (1774, 1788); (1791, 1791); (1808, 1808); (1810, 1839); (1869, 1957);
   (1969, 1969); (1984, 2026); (2036, 2037); (2042, 2042); (2048, 2069); (2074, 2074);
   (2084, 2084); (2088, 2088); (2112, 2136); (2144, 2154); (2160, 2183); (2185, 2190);
   (2208, 2249); (2308, 2361); (2365, 2365); (2384, 2384); (2392, 2401); (2406, 2415);
   (2417, 2432); (2437, 2444); (2447, 2448); (2451, 2472); (2474, 2480); (2482, 2482);
   (2486, 2489); (2493, 2493); (2510, 2510); (2524, 2525); (2527, 2529); (2534, 2545);
   (2548, 2553); (2556, 2556); (2565, 2570); (2575, 2576); (2579, 2600); (2602, 2608);
   (2610, 2611); (2613, 2614); (2616, 2617); (2649, 2652); (2654, 2654); (2662, 2671);
   (2674, 2676); (2693, 2701); (2703, 2705); (2707, 2728); (2730, 2736); (2738, 2739);
   (2741, 2745); (2749, 2749); (2768, 2768); (2784, 2785); (2790, 2799); (2809, 2809);
   (2821, 2828); (2831, 2832); (2835, 2856); (2858, 2864); (2866, 2867); (2869, 2873);
   (2877, 2877); (2908, 2909); (2911, 2913); (2918, 2927); (2929, 2935); (2947, 2947);
   (2949, 2954); (2958, 2960); (2962, 2965); (2969, 2970); (2972, 2972); (2974, 2975);
   (2979, 2980); (2984, 2986); (2990, 3001); (3024, 3024); (3046, 3058); (3077, 3084);
   (3086, 3088); (3090, 3112); (3114, 3129); (3133, 3133); (3160, 3162); (3165, 3165);
   (3168, 3169); (3174, 3183); (3192, 3198); (3200, 3200); (3205, 3212); (3214, 3216);
   (3218, 3240); (3242, 3251); (3253, 3257); (3261, 3261); (3293, 3294); (3296, 3297);
   (3302, 3311); (3313, 3314); (3332, 3340); (3342, 3344); (3346, 3386); (3389, 3389);
   (3406, 3406); (3412, 3414); (3416, 3425); (3430, 3448); (3450, 3455); (3461, 3478);
   (3482, 3505); (3507, 3515); (3517, 3517); (3520, 3526); (3558, 3567); (3585, 3632);
   (3634, 3635); (3648, 3654); (3664, 3673); (3713, 3714); (3716, 3716); (3718, 3722);
   (3724, 3747); (3749, 3749); (3751, 3760); (3762, 3763); (3773, 3773); (3776, 3780);
   (3782, 3782); (3792, 3801); (3804, 3807); (3840, 3840); (3872, 3891); (3904, 3911);
   (3913, 3948); (3976, 3980); (4096, 4138); (4159, 4169); (4176, 4181); (4186, 4189);
   (4193, 4193); (4197, 4198); (4206, 4208); (4213, 4225); (4238, 4238); (4240, 4249);
   (4256, 4293); (4295, 4295); (4301, 4301); (4304, 4346); (4348, 4680); (4682, 4685);
   (4688, 4694); (4696, 4696); (4698, 4701); (4704, 4744); (4746, 4749); (4752, 4784);
   (4786, 4789); (4792, 4798); (4800, 4800); (4802, 4805); (4808, 4822); (4824, 4880);
   (4882, 4885); (4888, 4954); (4969, 4988); (4992, 5007); (5024, 5109); (5112, 5117);
   (5121, 5740); (5743, 5759); (5761, 5786); (5792, 5866); (5870, 5880); (5888, 5905);
   (5919, 5937); (5952, 5969); (5984, 5996); (5998, 6000); (6016, 6067); (6103, 6103);
   (6108, 6108); (6112, 6121); (6128, 6137); (6160, 6169); (6176, 6264); (6272, 6276);
   (6279, 6312); (6314, 6314); (6320, 6389); (6400, 6430); (6470, 6509); (6512, 6516);
   (6528, 6571); (6576, 6601); (6608, 6618); (6656, 6678); (6688, 6740); (6784, 6793);
   (6800, 6809); (6823, 6823); (6917, 6963); (6981, 6988); (6992, 7001); (7043, 7072);
   (7086, 7141); (7168, 7203); (7232, 7241); (7245, 7293); (7296, 7304); (7312, 7354);
   (7357, 7359); (7401, 7404); (7406, 7411); (7413, 7414); (7418, 7418); (7424, 7615);
   (7680, 7957); (7960, 7965); (7968, 8005); (8008, 8013); (8016, 8023); (8025, 8025);
   (8027, 8027); (8029, 8029); (8031, 8061); (8064, 8116); (8118, 8124); (8126, 8126);
   (8130, 8132); (8134, 8140); (8144, 8147); (8150, 8155); (8160, 8172); (8178, 8180);
   (8182, 8188); (8304, 8305); (8308, 8313); (8319, 8329); (8336, 8348); (8450, 8450);
   (8455, 8455); (8458, 8467); (8469, 8469); (8473, 8477); (8484, 8484); (8486, 8486);
   (8488, 8488); (8490, 8493); (8495, 8505); (8508, 8511); (8517, 8521); (8526, 8526);
   (8528, 8585); (9312, 9371); (9450, 9471); (10102, 10131); (11264, 11492); (11499, 11502);
   (11506, 11507); (11517, 11517); (11520, 11557); (11559, 11559); (11565, 11565); (11568, 11623);
   (11631, 11631); (11648, 11670); (11680, 11686); (11688, 11694); (11696, 11702); (11704, 11710);
   (11712, 11718); (11720, 11726); (11728, 11734); (11736, 11742); (11823, 11823); (12293, 12295);
   (12321, 12329); (12337, 12341); (12344, 12348); (12353, 12438); (12445, 12447); (12449, 12538);
   (12540, 12543); (12549, 12591); (12593, 12686); (12690, 12693); (12704, 12735); (12784, 12799);
   (12832, 12841); (12872, 12879); (12881, 12895); (12928, 12937); (12977, 12991); (13312, 19903);
   (19968, 42124); (42192, 42237); (42240, 42508); (42512, 42539); (42560, 42606); (42623, 42653);
   (42656, 42735); (42775, 42783); (42786, 42888); (42891, 42954); (42960, 42961); (42963, 42963);
   (42965, 42969); (42994, 43009); (43011, 43013); (43015, 43018); (43020, 43042); (43056, 43061);
   (43072, 43123); (43138, 43187); (43216, 43225); (43250, 43255); (43259, 43259); (43261, 43262);
   (43264, 43301); (43312, 43334); (43360, 43388); (43396, 43442); (43471, 43481); (43488, 43492);
   (43494, 43518); (43520, 43560); (43584, 43586); (43588, 43595); (43600, 43609); (43616, 43638);
   (43642, 43642); (43646, 43695); (43697, 43697); (43701, 43702); (43705, 43709); (43712, 43712);
   (43714, 43714); (43739, 43741); (43744, 43754); (43762, 43764); (43777, 43782); (43785, 43790);
   (43793, 43798); (43808, 43814); (43816, 43822); (43824, 43866); (43868, 43881); (43888, 44002);
   (44016, 44025); (44032, 55203); (55216, 55238); (55243, 55291); (63744, 64109); (64112, 64217);
   (64256, 64262); (64275, 64279); (64285, 64285); (64287, 64296); (64298, 64310); (64312, 64316);
   (64318, 64318); (64320, 64321); (64323, 64324); (64326, 64433); (64467, 64829); (64848, 64911);
   (64914, 64967); (65008, 65019); (65136, 65140); (65142, 65276); (65296, 65305); (65313, 65338);
   (65345, 65370); (65382, 65470); (65474, 65479); (65482, 65487); (65490, 65495); (65498, 65500);
   (65536, 65547); (65549, 65574); (65576, 65594); (65596, 65597); (65599, 65613); (65616, 65629);
   (65664, 65786); (65799, 65843); (65856, 65912); (65930, 65931); (66176, 66204); (66208, 66256);
   (66273, 66299); (66304, 66339); (66349, 66378); (66384, 66421); (66432, 66461); (66464, 66499);
   (66504, 66511); (66513, 66517); (66560, 66717); (66720, 66729); (66736, 66771); (66776, 66811);
   (66816, 66855); (66864, 66915); (66928, 66938); (66940, 66954); (66956, 66962); (66964, 66965);
   (66967, 66977); (66979, 66993); (66995, 67001); (67003, 67004); (67072, 67382); (67392, 67413);
   (67424, 67431); (67456, 67461); (67463, 67504); (67506, 67514); (67584, 67589); (67592, 67592);
   (67594, 67637); (67639, 67640); (67644, 67644); (67647, 67669); (67672, 67702); (67705, 67742);
   (67751, 67759); (67808, 67826); (67828, 67829); (67835, 67867); (67872, 67897); (67968, 68023);
   (68028, 68047); (68050, 68096); (68112, 68115); (68117, 68119); (68121, 68149); (68160, 68168);
   (68192, 68222); (68224, 68255); (68288, 68295); (68297, 68324); (68331, 68335); (68352, 68405);
   (68416, 68437); (68440, 68466); (68472, 68497); (68521, 68527); (68608, 68680); (68736, 68786);
   (68800, 68850); (68858, 68899); (68912, 68921); (69216, 69246); (69248, 69289); (69296, 69297);
   (69376, 69415); (69424, 69445); (69457, 69460); (69488, 69505); (69552, 69579); (69600, 69622);
   (69635, 69687); (69714, 69743); (69745, 69746); (69749, 69749); (69763, 69807); (69840, 69864);
   (69872, 69881); (69891, 69926); (69942, 69951); (69956, 69956); (69959, 69959); (69968, 70002);
   (70006, 70006); (70019, 70066); (70081, 70084); (70096, 70106); (70108, 70108); (70113, 70132);
   (70144, 70161); (70163, 70187); (70272, 70278); (70280, 70280); (70282, 70285); (70287, 70301);
   (70303, 70312); (70320, 70366); (70384, 70393); (70405, 70412); (70415, 70416); (70419, 70440);
   (70442, 70448); (70450, 70451); (70453, 70457); (70461, 70461); (70480, 70480); (70493, 70497);
   (70656, 70708); (70727, 70730); (70736, 70745); (70751, 70753); (70784, 70831); (70852, 70853);
   (70855, 70855); (70864, 70873); (71040, 71086); (71128, 71131); (71168, 71215); (71236, 71236);
   (71248, 71257); (71296, 71338); (71352, 71352); (71360, 71369); (71424, 71450); (71472, 71483);
   (71488, 71494); (71680, 71723); (71840, 71922); (71935, 71942); (71945, 71945); (71948, 71955);
   (71957, 71958); (71960, 71983); (71999, 71999); (72001, 72001); (72016, 72025); (72096, 72103);
   (72106, 72144); (72161, 72161); (72163, 72163); (72192, 72192); (72203, 72242); (72250, 72250);
   (72272, 72272); (72284, 72329); (72349, 72349); (72368, 72440); (72704, 72712); (72714, 72750);
   (72768, 72768); (72784, 72812); (72818, 72847); (72960, 72966); (72968, 72969); (72971, 73008);
   (73030, 73030); (73040, 73049); (73056, 73061); (73063, 73064); (73066, 73097); (73112, 73112);
   (73120, 73129); (73440, 73458); (73648, 73648); (73664, 73684); (73728, 74649); (74752, 74862);
   (74880, 75075); (77712, 77808); (77824, 78894); (82944, 83526); (92160, 92728); (92736, 92766);
   (92768, 92777); (92784, 92862); (92864, 92873); (92880, 92909); (92928, 92975); (92992, 92995);
   (93008, 93017); (93019, 93025); (93027, 93047); (93053, 93071); (93760, 93846); (93952, 94026);
   (94032, 94032); (94099, 94111); (94176, 94177); (94179, 94179); (94208, 100343);
   (100352, 101589); (101632, 101640); (110576, 110579); (110581, 110587); (110589, 110590);
   (110592, 110882); (110928, 110930); (110948, 110951); (110960, 111355); (113664, 113770);
   (113776, 113788); (113792, 113800); (113808, 113817); (119520, 119539); (119648, 119672);
   (119808, 119892); (119894, 119964); (119966, 119967); (119970, 119970); (119973, 119974);
   (119977, 119980); (119982, 119993); (119995, 119995); (119997, 120003); (120005, 120069);
   (120071, 120074); (120077, 120084); (120086, 120092); (120094, 120121); (120123, 120126);
   (120128, 120132); (120134, 120134); (120138, 120144); (120146, 120485); (120488, 120512);
   (120514, 120538); (120540, 120570); (120572, 120596); (120598, 120628); (120630, 120654);
   (120656, 120686); (120688, 120712); (120714, 120744); (120746, 120770); (120772, 120779);
   (120782, 120831); (122624, 122654); (123136, 123180); (123191, 123197); (123200, 123209);
   (123214, 123214); (123536, 123565); (123584, 123627); (123632, 123641); (124896, 124902);
   (124904, 124907); (124909, 124910); (124912, 124926); (124928, 125124); (125127, 125135);
   (125184, 125251); (125259, 125259); (125264, 125273); (126065, 126123); (126125, 126127);
   (126129, 126132); (126209, 126253); (126255, 126269); (126464, 126467); (126469, 126495);
   (126497, 126498); (126500, 126500); (126503, 126503); (126505, 126514); (126516, 126519);
   (126521, 126521); (126523, 126523); (126530, 126530); (126535, 126535); (126537, 126537);
   (126539, 126539); (126541, 126543); (126545, 126546); (126548, 126548); (126551, 126551);
   (126553, 126553); (126555, 126555); (126557, 126557); (126559, 126559); (126561, 126562);
   (126564, 126564); (126567, 126570); (126572, 126578); (126580, 126583); (126585, 126588);
   (126590, 126590); (126592, 126601); (126603, 126619); (126625, 126627); (126629, 126633);
   (126635, 126651); (127232, 127244); (130032, 130041); (131072, 173791); (173824, 177976);
   (177984, 178205); (178208, 183969); (183984, 191456); (194560, 195101); (196608, 201546)
 ]%N.

Definition char_isalnum (c : char) : bool :=
  existsb (fun r => N.leb (fst r) c && N.leb c (snd r)) alnum_ranges.

(** [s.isalnum()]: [s] is not empty and all its characters are alphanumeric. *)
Definition isalnum (s : str) : bool :=
  match s with
  | [] => false
  | _ => forallb char_isalnum s
  end.

(** [s.startswith('\\')] *)
Definition startswith_backslash (s : str) : bool :=
  match s with
  | c :: _ => char_eqb c backslash
  | [] => false
  end.

(** [s.startswith('#')] *)
Definition startswith_hash (s : str) : bool :=
  match s with
  | c :: _ => char_eqb c 35%N
  | [] => false
  end.

(** [str.isspace] of CPython for a single code point (Unicode 14.0.0). *)
Definition space_ranges : list (N * N) :=
  [(9, 13); (28, 32); (133, 133); (160, 160); (5760, 5760); (8192, 8202);
   (8232, 8233); (8239, 8239); (8287, 8287); (12288, 12288)]%N.

Definition char_isspace (c : char) : bool :=
  existsb (fun r => N.leb (fst r) c && N.leb c (snd r)) space_ranges.

Fixpoint lstrip (s : str) : str :=
  match s with
  | c :: s' => if char_isspace c then lstrip s' else s
  | [] => []
  end.

(** [s.strip()] *)
Definition strip (s : str) : str := rev (lstrip (rev (lstrip s))).

Fixpoint digits (u : Decimal.uint) : str :=
  match u with
  | Decimal.Nil => []
  | Decimal.D0 u' => 48%N :: digits u'
  | Decimal.D1 u' => 49%N :: digits u'
  | Decimal.D2 u' => 50%N :: digits u'
  | Decimal.D3 u' => 51%N :: digits u'
  | Decimal.D4 u' => 52%N :: digits u'
  | Decimal.D5 u' => 53%N :: digits u'
  | Decimal.D6 u' => 54%N :: digits u'
  | Decimal.D7 u' => 55%N :: digits u'
  | Decimal.D8 u' => 56%N :: digits u'
  | Decimal.D9 u' => 57%N :: digits u'
  end.

(** [f"{n}"] for a non-negative integer: its decimal digits. *)
Definition str_of_nat (n : nat) : str := digits (Nat.to_uint n).

(** ** Step 1: explicit concatenation ([insert_concatenation])

    The function is the same in both scripts.  Its first loop is the
    tokenizer, its second loop the inserter. *)

Fixpoint tokenize_loop (fuel : nat) (expr : str) (i : nat) (tokens : list str)
  : result (list str) :=
  if i <? length expr then
    match fuel with
    | O => OutOfFuel
    | S fuel' =>
        c <- get expr i ;;
        if char_eqb c backslash && (i + 1 <? length expr) then
          tokenize_loop fuel' expr (i + 2) (tokens ++ [slice expr i (i + 2)])
        else
          c' <- get expr i ;;
          tokenize_loop fuel' expr (i + 1) (tokens ++ [[c']])
    end
  else Ok tokens.

Definition tokenize (expr : str) : result (list str) :=
  tokenize_loop (length expr) expr 0 [].

(** The body of [for j, tok in enumerate(tokens)]; [todo] is what is left
    of [tokens] from index [j] on. *)
Fixpoint insert_loop (tokens : list str) (j : nat) (todo : list str)
  (result_ : list str) : result (list str) :=
  match todo with
  | [] => Ok result_
  | tok :: todo' =>
      result1 <-
        (if 0 <? j then
           match nth_error tokens (j - 1) with
           | Some prev =>
               if negb (str_in prev [py "|"; py "("])
                  && negb (str_in tok [py "|"; py ")"; py "*"; py "+"; py "?"])
               then Ok (result_ ++ [py "."])
               else Ok result_
           | None => Raise IndexError
           end
         else Ok result_) ;;
      insert_loop tokens (S j) todo' (result1 ++ [tok])
  end.

Definition insert_concatenation (expr : str) : result (list str) :=
  tokens <- tokenize expr ;;
  insert_loop tokens 0 tokens [].

(** ** Step 2: shunting-yard *)

Definition precedence (op : str) : nat :=
  if str_in op [py "*"; py "+"; py "?"] then 3
  else if str_eqb op (py ".") then 2
  else if str_eqb op (py "|") then 1
  else 0.

(** One record of [pasos]: the label and the copies of [output] and [stack]. *)
Definition paso : Type := (str * list str * list str)%type.

Record sy_state : Type := mk_sy {
  output : list str;
  stack  : list str;   (* head = top, i.e. [stack[-1]] *)
  pasos  : list paso
}.

Definition snapshot (label : str) (out stk : list str) : paso :=
  (label, out, rev stk).

Section ShuntingYard.

(** The test of the first branch, the one place where the two scripts
    differ. *)
Variable is_operand : str -> bool.

(** [while stack and stack[-1] != '(': ...] of the [')'] branch. *)
Fixpoint pop_for_rparen (out stk : list str) (ps : list paso) : sy_state :=
  match stk with
  | op :: stk' =>
      if negb (str_eqb op (py "(")) then
        let out' := out ++ [op] in
        pop_for_rparen out' stk' (ps ++ [snapshot (py "pop for )") out' stk'])
      else mk_sy out stk ps
  | [] => mk_sy out stk ps
  end.

(** [while stack and precedence(stack[-1]) >= precedence(token): ...] of the
    operator branch, with its [break]. *)
Fixpoint pop_ops (token : str) (out stk : list str) (ps : list paso) : sy_state :=
  match stk with
  | top :: stk' =>
      if precedence token <=? precedence top then
        if str_eqb top (py "(") then mk_sy out stk ps
        else
          let out' := out ++ [top] in
          pop_ops token out' stk' (ps ++ [snapshot (py "pop op " ++ top) out' stk'])
      else mk_sy out stk ps
  | [] => mk_sy out stk ps
  end.

(** The body of [for token in tokens]. *)
Definition sy_step (st : sy_state) (token : str) : sy_state :=
  let '(mk_sy out stk ps) := st in
  if is_operand token then
    let out' := out ++ [token] in
    mk_sy out' stk (ps ++ [snapshot (py "operand " ++ token) out' stk])
  else if str_eqb token (py "(") then
    let stk' := token :: stk in
    mk_sy out stk' (ps ++ [snapshot (py "push (") out stk'])
  else if str_eqb token (py ")") then
    let '(mk_sy out1 stk1 ps1) := pop_for_rparen out stk ps in
    match stk1 with
    | top :: stk2 =>
        if str_eqb top (py "(")
        then mk_sy out1 stk2 (ps1 ++ [snapshot (py "pop (") out1 stk2])
        else mk_sy out1 stk1 (ps1 ++ [snapshot (py "ignore unmatched )") out1 stk1])
    | [] => mk_sy out1 stk1 (ps1 ++ [snapshot (py "ignore unmatched )") out1 stk1])
    end
  else if str_in token [py "|"; py "."; py "*"; py "+"; py "?"] then
    let '(mk_sy out1 stk1 ps1) := pop_ops token out stk ps in
    let stk2 := token :: stk1 in
    mk_sy out1 stk2 (ps1 ++ [snapshot (py "push op " ++ token) out1 stk2])
  else
    mk_sy out stk (ps ++ [snapshot (py "ignore " ++ token) out stk]).

Definition sy_loop (tokens : list str) : sy_state :=
  fold_left sy_step tokens (mk_sy [] [] []).

(** The final [while stack: ...]. *)
Fixpoint pop_end (out stk : list str) (ps : list paso) : sy_state :=
  match stk with
  | op :: stk' =>
      let out' := out ++ [op] in
      pop_end out' stk' (ps ++ [snapshot (py "pop end " ++ op) out' stk'])
  | [] => mk_sy out stk ps
  end.

Definition shunting_yard_with (tokens : list str) : list str * list paso :=
  let st := sy_loop tokens in
  let st' := pop_end (output st) (stack st) (pasos st) in
  (output st', pasos st').

End ShuntingYard.

(** ** Step 3: the syntax tree ([build_syntax_tree]); the same in both scripts *)

#[local] Unset Elimination Schemes.
Inductive RegexNode : Type :=
  mkRegexNode (value : str) (left right : option RegexNode).
#[local] Set Elimination Schemes.

Definition value (n : RegexNode) : str := let '(mkRegexNode v _ _) := n in v.
Definition left (n : RegexNode) : option RegexNode := let '(mkRegexNode _ l _) := n in l.
Definition right (n : RegexNode) : option RegexNode := let '(mkRegexNode _ _ r) := n in r.

(** [stack.pop()] on a list of nodes. *)
Definition pop (stk : list RegexNode) : result (RegexNode * list RegexNode) :=
  match stk with
  | n :: stk' => Ok (n, stk')
  | [] => Raise IndexError
  end.

(** The body of [for tok in postfix_tokens]. *)
Definition build_step (stk : list RegexNode) (tok : str) : result (list RegexNode) :=
  if str_in tok [py "*"; py "+"; py "?"] then
    p <- pop stk ;;
    let '(child, stk1) := p in
    Ok (mkRegexNode tok (Some child) None :: stk1)
  else if str_in tok [py "."; py "|"] then
    p <- pop stk ;;
    let '(right_, stk1) := p in
    q <- pop stk1 ;;
    let '(left_, stk2) := q in
    Ok (mkRegexNode tok (Some left_) (Some right_) :: stk2)
  else
    Ok (mkRegexNode tok None None :: stk).

Fixpoint build_loop (stk : list RegexNode) (postfix_tokens : list str)
  : result (list RegexNode) :=
  match postfix_tokens with
  | [] => Ok stk
  | tok :: rest => stk' <- build_step stk tok ;; build_loop stk' rest
  end.

Definition build_syntax_tree (postfix_tokens : list str) : result RegexNode :=
  stk <- build_loop [] postfix_tokens ;;
  p <- pop stk ;;
  Ok (fst p).

(** ** Step 4: the graph handed to Graphviz

    A [Digraph] of the graphviz package collects, in the order of the
    calls, one statement per [dot.node] and [dot.edge]; [dot.render], which
    writes the file, is left to the caller. *)

Inductive stmt : Type :=
| node_stmt (name label : str)
| edge_stmt (tail_name head_name : str).

Record Digraph : Type := mk_Digraph {
  format_    : str;
  graph_attr : list (str * str);
  body       : list stmt
}.

(** ** [shunting_yard_regex.py] *)

Module Regex.

Definition is_operand (token : str) : bool :=
  startswith_backslash token
  || ((length token =? 1)
      && (isalnum token || str_in token [py "_"; py "["; py "]"; py "{"; py "}"])).

Definition shunting_yard (tokens : list str) : list str * list paso :=
  shunting_yard_with is_operand tokens.

(** What [procesar_archivo] computes for one line [expr], without the
    printing and the rendering. *)
Definition pipeline (expr : str) : result RegexNode :=
  tokens <- insert_concatenation expr ;;
  let '(postfix, _) := shunting_yard tokens in
  build_syntax_tree postfix.

(** [visit] of [visualize_with_graphviz]; the state is [count] and the body
    of [dot].  An edge goes from the node to its child. *)
Fixpoint visit (node : RegexNode) (count : nat) (dot : list stmt)
  : str * (nat * list stmt) :=
  match node with
  | mkRegexNode v l r =>
      let nid := py "n" ++ str_of_nat count in
      let count1 := count + 1 in
      let dot1 := dot ++ [node_stmt nid v] in
      let st2 :=
        match l with
        | Some node_left =>
            let '(lid, (count2, dot2)) := visit node_left count1 dot1 in
            (count2, dot2 ++ [edge_stmt nid lid])
        | None => (count1, dot1)
        end in
      let st3 :=
        match r with
        | Some node_right =>
            let '(rid, (count3, dot3)) := visit node_right (fst st2) (snd st2) in
            (count3, dot3 ++ [edge_stmt nid rid])
        | None => st2
        end in
      (nid, st3)
  end.

(** The graph that [visualize_with_graphviz] renders to [filename]. *)
Definition visualize_with_graphviz (root : RegexNode) (filename : str)
  : str * Digraph :=
  let '(_, (_, dot)) := visit root 0 [] in
  (filename, mk_Digraph (py "png") [(py "rankdir", py "BT")] dot).

(** The loop of [procesar_archivo] over the lines of the file, without the
    printing: the calls of [visualize_with_graphviz] made, in order, and
    how the run ends ([Ok tt], or the exception that stops it). *)
Fixpoint procesar_lineas (lineas : list str) (idx : nat)
  : list (str * Digraph) * result unit :=
  match lineas with
  | [] => ([], Ok tt)
  | linea :: rest =>
      let expr := strip linea in
      if (length expr =? 0) || startswith_hash expr then procesar_lineas rest idx
      else
        match pipeline expr with
        | Ok root =>
            let png_name := py "tree_" ++ str_of_nat idx in
            let '(calls, r) := procesar_lineas rest (idx + 1) in
            (visualize_with_graphviz root png_name :: calls, r)
        | Raise e => ([], Raise e)
        | OutOfFuel => ([], OutOfFuel)
        end
  end.

Definition procesar_archivo (lineas : list str) : list (str * Digraph) * result unit :=
  procesar_lineas lineas 1.

End Regex.

(** ** [shunting_yard_simp.py] *)

Module Simp.

(** *** Step 0: [expand_plus_question] *)

(** The loop of [is_escaped]; [k1] is [k + 1], so that [k >= 0] reads
    [k1 = S k]. *)
Fixpoint is_escaped_loop (expr : str) (k1 cnt : nat) : result nat :=
  match k1 with
  | O => Ok cnt
  | S k =>
      c <- get expr k ;;
      if char_eqb c backslash then is_escaped_loop expr k (cnt + 1) else Ok cnt
  end.

Definition is_escaped (expr : str) (pos : nat) : result bool :=
  cnt <- is_escaped_loop expr pos 0 ;;
  Ok (cnt mod 2 =? 1).

(** [b and not is_escaped(i)] *)
Definition and_not_escaped (b : bool) (expr : str) (i : nat) : result bool :=
  if b then (e <- is_escaped expr i ;; Ok (negb e)) else Ok false.

(** [while i < n and depth > 0: ...]; answers the final [(i, depth)]. *)
Fixpoint scan_group (fuel : nat) (expr : str) (i depth : nat) : result (nat * nat) :=
  if (i <? length expr) && (0 <? depth) then
    match fuel with
    | O => OutOfFuel
    | S fuel' =>
        c <- get expr i ;;
        opening <- and_not_escaped (char_eqb c lparen) expr i ;;
        if opening then scan_group fuel' expr (i + 1) (depth + 1)
        else
          c' <- get expr i ;;
          closing <- and_not_escaped (char_eqb c' rparen) expr i ;;
          if closing then scan_group fuel' expr (i + 1) (depth - 1)
          else scan_group fuel' expr (i + 1) depth
    end
  else Ok (i, depth).

(** The three branches that read one unit at [i]: the token and the index
    after it.  [recur] is the recursive call of [expand_plus_question]. *)
Definition read_unit (recur : str -> result str) (expr : str) (i : nat)
  : result (str * nat) :=
  let n := length expr in
  c <- get expr i ;;
  if char_eqb c backslash && (i + 1 <? n) then
    Ok (slice expr i (i + 2), i + 2)
  else
    c1 <- get expr i ;;
    group <- and_not_escaped (char_eqb c1 lparen) expr i ;;
    if group then
      let start := i in
      p <- scan_group n expr (i + 1) 1 ;;
      let i1 := fst p in
      let inner := slice expr (start + 1) (i1 - 1) in
      r <- recur inner ;;
      Ok (py "(" ++ r ++ py ")", i1)
    else
      c2 <- get expr i ;;
      Ok ([c2], i + 1).

(** [i < n and not is_escaped(i) and expr[i] in ['+', '?']] *)
Definition quantifier_follows (expr : str) (i : nat) : result bool :=
  if i <? length expr then
    e <- is_escaped expr i ;;
    if negb e then
      c <- get expr i ;;
      Ok (str_in [c] [py "+"; py "?"])
    else Ok false
  else Ok false.

(** [while i < n: ...]; the recursive call on the interior of a group runs
    the same loop on [inner] from [i = 0] and [out = ''].  One unit of fuel
    is spent per iteration and per call. *)
Fixpoint expand_loop (fuel : nat) (expr : str) (i : nat) (out : str) : result str :=
  if i <? length expr then
    match fuel with
    | O => OutOfFuel
    | S fuel' =>
        unit_ <- read_unit (fun inner => expand_loop fuel' inner 0 []) expr i ;;
        let '(token, i1) := unit_ in
        quantified <- quantifier_follows expr i1 ;;
        if quantified then
          op <- get expr i1 ;;
          if str_eqb [op] (py "+")
          then expand_loop fuel' expr (i1 + 1) (out ++ token ++ token ++ py "*")
          else expand_loop fuel' expr (i1 + 1) (out ++ py "(" ++ token ++ py "|ε)")
        else expand_loop fuel' expr i1 (out ++ token)
    end
  else Ok out.

Definition expand_plus_question (expr : str) : result str :=
  expand_loop (length expr) expr 0 [].

Definition is_operand (token : str) : bool :=
  startswith_backslash token
  || ((length token =? 1)
      && (isalnum token
          || str_in token [py "_"; py "["; py "]"; py "{"; py "}"; py "ε"])).

Definition shunting_yard (tokens : list str) : list str * list paso :=
  shunting_yard_with is_operand tokens.

(** What [procesar_archivo] computes for one line [expr], without the
    printing and the rendering. *)
Definition pipeline (expr : str) : result RegexNode :=
  expr2 <- expand_plus_question expr ;;
  tokens <- insert_concatenation expr2 ;;
  let '(postfix, _) := shunting_yard tokens in
  build_syntax_tree postfix.

(** [visit] of [visualize_with_graphviz]; the state is [count] and the body
    of [dot].  An edge goes from the child to its node. *)
Fixpoint visit (node : RegexNode) (count : nat) (dot : list stmt)
  : str * (nat * list stmt) :=
  match node with
  | mkRegexNode v l r =>
      let nid := py "n" ++ str_of_nat count in
      let count1 := count + 1 in
      let dot1 := dot ++ [node_stmt nid v] in
      let st2 :=
        match l with
        | Some node_left =>
            let '(lid, (count2, dot2)) := visit node_left count1 dot1 in
            (count2, dot2 ++ [edge_stmt lid nid])
        | None => (count1, dot1)
        end in
      let st3 :=
        match r with
        | Some node_right =>
            let '(rid, (count3, dot3)) := visit node_right (fst st2) (snd st2) in
            (count3, dot3 ++ [edge_stmt rid nid])
        | None => st2
        end in
      (nid, st3)
  end.

(** The graph that [visualize_with_graphviz] renders to [filename]. *)
Definition visualize_with_graphviz (root : RegexNode) (filename : str)
  : str * Digraph :=
  let '(_, (_, dot)) := visit root 0 [] in
  (filename, mk_Digraph (py "png") [(py "rankdir", py "BT")] dot).

(** The loop of [procesar_archivo] over the lines of the file, without the
    printing: the calls of [visualize_with_graphviz] made, in order, and
    how the run ends ([Ok tt], or the exception that stops it). *)
Fixpoint procesar_lineas (lineas : list str) (idx : nat)
  : list (str * Digraph) * result unit :=
  match lineas with
  | [] => ([], Ok tt)
  | linea :: rest =>
      let expr := strip linea in
      if (length expr =? 0) || startswith_hash expr then procesar_lineas rest idx
      else
        match pipeline expr with
        | Ok root =>
            let png := py "tree_simplified_" ++ str_of_nat idx in
            let '(calls, r) := procesar_lineas rest (idx + 1) in
            (visualize_with_graphviz root png :: calls, r)
        | Raise e => ([], Raise e)
        | OutOfFuel => ([], OutOfFuel)
        end
  end.

Definition procesar_archivo (lineas : list str) : list (str * Digraph) * result unit :=
  procesar_lineas lineas 1.

End Simp.

(** ** Auxiliary definitions for the statements *)

(** The number of operands a postfix token takes from the builder's stack. *)
Definition arity (tok : str) : nat :=
  if str_in tok [py "*"; py "+"; py "?"] then 1
  else if str_in tok [py "."; py "|"] then 2
  else 0.

Definition leaf (v : str) : RegexNode := mkRegexNode v None None.

(** The tokens of a string, by recursion on the string: what the first loop
    of [insert_concatenation] is shown to compute. *)
Fixpoint tokens_of (expr : str) : list str :=
  match expr with
  | [] => []
  | c :: rest =>
      if char_eqb c backslash then
        match rest with
        | d :: rest' => [c; d] :: tokens_of rest'
        | [] => [[c]]
        end
      else [c] :: tokens_of rest
  end.

(** The test of the second loop of [insert_concatenation]. *)
Definition needs_dot (prev tok : str) : bool :=
  negb (str_in prev [py "|"; py "("])
  && negb (str_in tok [py "|"; py ")"; py "*"; py "+"; py "?"]).

(** The tokens [todo] that follow the token [prev], with the dots that the
    second loop inserts. *)
Fixpoint dots_from (prev : str) (todo : list str) : list str :=
  match todo with
  | [] => []
  | tok :: todo' =>
      (if needs_dot prev tok then [py "."] else []) ++ tok :: dots_from tok todo'
  end.

Definition with_dots (tokens : list str) : list str :=
  match tokens with
  | [] => []
  | tok :: todo => tok :: dots_from tok todo
  end.

(** A dot between every two adjacent tokens. *)
Fixpoint dotted (tokens : list str) : list str :=
  match tokens with
  | [] => []
  | tok :: todo =>
      match todo with
      | [] => [tok]
      | _ :: _ => tok :: py "." :: dotted todo
      end
  end.

(** A character that is none of [\ | ( ) * + ?]. *)
Definition plain_char (c : char) : bool :=
  negb (existsb (char_eqb c) [backslash; bar; lparen; rparen; star; plus; question]).

(** The length of the run of backslashes that [l] starts with; on the
    reversal of a prefix, the run that [is_escaped] counts. *)
Fixpoint run (l : str) : nat :=
  match l with
  | c :: l' => if char_eqb c backslash then S (run l') else 0
  | [] => 0
  end.

(** The character that follows the prefix [pre] is escaped. *)
Definition odd_run (pre : str) : bool := Nat.odd (run (rev pre)).

(** What [scan_group] is shown to compute on the suffix [suf] of the
    expression: the number of characters it passes and the depth it ends
    with.  [esc] tells whether the first character of [suf] is escaped. *)
Fixpoint scan (esc : bool) (suf : str) (depth : nat) : nat * nat :=
  match suf with
  | [] => (0, depth)
  | c :: suf' =>
      match depth with
      | O => (0, 0)
      | S d =>
          let esc' := if char_eqb c backslash then negb esc else false in
          let depth' :=
            if char_eqb c lparen && negb esc then S depth
            else if char_eqb c rparen && negb esc then d
            else depth in
          let r := scan esc' suf' depth' in
          (S (fst r), snd r)
      end
  end.

(** *** Expressions as sequences of units

    The units of the docstring of [expand_plus_question]: an escaped
    character, a group, or a single character; each unit of a sequence is
    followed by at most one quantifier. *)

Inductive quantifier : Type := QPlus | QQuestion.

Inductive regex_unit : Type :=
| Lit (c : char)
| Esc (c : char)
| Grp (body : units)
with units : Type :=
| UNil
| UCons (u : regex_unit) (q : option quantifier) (rest : units).

Scheme regex_unit_mut := Induction for regex_unit Sort Prop
  with units_mut := Induction for units Sort Prop.
Combined Scheme regex_unit_units_ind from regex_unit_mut, units_mut.

(** A character that stands for itself as a unit: none of [\ ( ) + ?]. *)
Definition unit_char (c : char) : bool :=
  negb (existsb (char_eqb c) [backslash; lparen; rparen; plus; question]).

Fixpoint wf_unit (u : regex_unit) : bool :=
  match u with
  | Lit c => unit_char c
  | Esc _ => true
  | Grp body => wf_units body
  end
with wf_units (e : units) : bool :=
  match e with
  | UNil => true
  | UCons u _ rest => wf_unit u && wf_units rest
  end.

Definition render_quantifier (q : option quantifier) : str :=
  match q with
  | None => []
  | Some QPlus => [plus]
  | Some QQuestion => [question]
  end.

(** The string that an expression is written as. *)
Fixpoint render_unit (u : regex_unit) : str :=
  match u with
  | Lit c => [c]
  | Esc c => [backslash; c]
  | Grp body => lparen :: render_units body ++ [rparen]
  end
with render_units (e : units) : str :=
  match e with
  | UNil => []
  | UCons u q rest => render_unit u ++ render_quantifier q ++ render_units rest
  end.

(** [X+ -> XX*] and [X? -> (X|ε)] on the text [token] of a unit. *)
Definition quantified (token : str) (q : option quantifier) : str :=
  match q with
  | None => token
  | Some QPlus => token ++ token ++ py "*"
  | Some QQuestion => py "(" ++ token ++ py "|ε)"
  end.

(** The expansion that the docstring describes, by recursion on the units. *)
Fixpoint expanded_unit (u : regex_unit) : str :=
  match u with
  | Lit c => [c]
  | Esc c => [backslash; c]
  | Grp body => py "(" ++ expanded_units body ++ py ")"
  end
with expanded_units (e : units) : str :=
  match e with
  | UNil => []
  | UCons u q rest => quantified (expanded_unit u) q ++ expanded_units rest
  end.






(** *** Trees and postfix sequences *)

(** The tokens of a tree in postorder: left subtree, right subtree, node. *)
Fixpoint to_postfix (n : RegexNode) : list str :=
  match n with
  | mkRegexNode v l r =>
      (match l with Some a => to_postfix a | None => [] end)
      ++ (match r with Some b => to_postfix b | None => [] end)
      ++ [v]
  end.

(** The values of a tree in preorder: node, left subtree, right subtree. *)
Fixpoint preorder (n : RegexNode) : list str :=
  match n with
  | mkRegexNode v l r =>
      v :: (match l with Some a => preorder a | None => [] end)
        ++ (match r with Some b => preorder b | None => [] end)
  end.

Fixpoint node_size (n : RegexNode) : nat :=
  match n with
  | mkRegexNode _ l r =>
      1 + (match l with Some a => node_size a | None => 0 end)
        + (match r with Some b => node_size b | None => 0 end)
  end.

(** Every node has the children that the arity of its value asks for: a
    leaf none, a unary operator a left child, a binary operator both. *)
Fixpoint wf_node (n : RegexNode) : bool :=
  match n with
  | mkRegexNode v l r =>
      match l, r with
      | None, None => arity v =? 0
      | Some a, None => (arity v =? 1) && wf_node a
      | Some a, Some b => (arity v =? 2) && wf_node a && wf_node b
      | None, Some _ => false
      end
  end.

Section RegexNodeInduction.

Variable P : RegexNode -> Prop.

Definition on_child (o : option RegexNode) : Prop :=
  match o with
  | Some n => P n
  | None => True
  end.

Hypothesis step : forall v l r, on_child l -> on_child r -> P (mkRegexNode v l r).

Fixpoint RegexNode_induction (n : RegexNode) : P n :=
  match n with
  | mkRegexNode v l r =>
      step v l r
        (match l as o return on_child o with
         | Some a => RegexNode_induction a
         | None => I
         end)
        (match r as o return on_child o with
         | Some b => RegexNode_induction b
         | None => I
         end)
  end.

End RegexNodeInduction.

(** The height of the builder's stack after the tokens [postfix_tokens],
    from the height [h]; [None] when some operator finds too few nodes. *)
Fixpoint stack_height (h : nat) (postfix_tokens : list str) : option nat :=
  match postfix_tokens with
  | [] => Some h
  | tok :: rest =>
      if arity tok <=? h then stack_height (h + 1 - arity tok) rest else None
  end.

(** The tokens of the trees on the builder's stack, bottom first. *)
Definition stack_tokens (stk : list RegexNode) : list str :=
  concat (map to_postfix (rev stk)).

(** The concatenation of the leaves [tokens], nested to the left, on [t]. *)
Definition concat_left (t : RegexNode) (tokens : list str) : RegexNode :=
  fold_left (fun acc tok => mkRegexNode (py ".") (Some acc) (Some (leaf tok)))
    tokens t.

(** *** Counting tokens *)

Definition not_dot (tok : str) : bool := negb (str_eqb tok (py ".")).

Definition count_token (t : str) (l : list str) : nat :=
  length (filter (str_eqb t) l).

Definition is_operator (token : str) : bool :=
  str_in token [py "|"; py "."; py "*"; py "+"; py "?"].

(** What the converter does not ignore. *)
Definition recognised (is_operand : str -> bool) (token : str) : bool :=
  is_operand token || str_eqb token (py "(") || str_eqb token (py ")")
  || is_operator token.

(** *** The converter without its trace

    The output and the stack of the converter, which its trace never
    feeds back into: what the loops below are shown to compute on them. *)

Definition sy_core (st : sy_state) : list str * list str := (output st, stack st).

Fixpoint core_pop_for_rparen (out stk : list str) : list str * list str :=
  match stk with
  | op :: stk' =>
      if negb (str_eqb op (py "(")) then core_pop_for_rparen (out ++ [op]) stk'
      else (out, stk)
  | [] => (out, stk)
  end.

Fixpoint core_pop_ops (token : str) (out stk : list str) : list str * list str :=
  match stk with
  | top :: stk' =>
      if precedence token <=? precedence top then
        if str_eqb top (py "(") then (out, stk)
        else core_pop_ops token (out ++ [top]) stk'
      else (out, stk)
  | [] => (out, stk)
  end.

Definition core_step (is_operand : str -> bool) (st : list str * list str)
  (token : str) : list str * list str :=
  let '(out, stk) := st in
  if is_operand token then (out ++ [token], stk)
  else if str_eqb token (py "(") then (out, token :: stk)
  else if str_eqb token (py ")") then
    let '(out1, stk1) := core_pop_for_rparen out stk in
    match stk1 with
    | top :: stk2 => if str_eqb top (py "(") then (out1, stk2) else (out1, stk1)
    | [] => (out1, stk1)
    end
  else if str_in token [py "|"; py "."; py "*"; py "+"; py "?"] then
    let '(out1, stk1) := core_pop_ops token out stk in
    (out1, token :: stk1)
  else (out, stk).

(** *** Graphs *)

(** [f"n{count}"] *)
Definition node_id (count : nat) : str := py "n" ++ str_of_nat count.

Fixpoint node_stmts (b : list stmt) : list (str * str) :=
  match b with
  | [] => []
  | node_stmt name label :: b' => (name, label) :: node_stmts b'
  | edge_stmt _ _ :: b' => node_stmts b'
  end.

Fixpoint edge_stmts (b : list stmt) : list (str * str) :=
  match b with
  | [] => []
  | node_stmt _ _ :: b' => edge_stmts b'
  | edge_stmt tail_name head_name :: b' => (tail_name, head_name) :: edge_stmts b'
  end.

(** The same statement with the edge turned round. *)
Definition flip_stmt (s : stmt) : stmt :=
  match s with
  | node_stmt name label => node_stmt name label
  | edge_stmt tail_name head_name => edge_stmt head_name tail_name
  end.

(** An edge from the node numbered [i] to a node numbered higher, both
    from [lo] and below [hi]. *)
Definition edge_between (lo hi : nat) (e : str * str) : Prop :=
  exists i j, lo <= i /\ i < j /\ j < hi /\ e = (node_id i, node_id j).

(** *** Lines *)

(** A line that [procesar_archivo] passes over. *)
Definition skipped (linea : str) : bool :=
  (length (strip linea) =? 0) || startswith_hash (strip linea).

(** *** Balanced parentheses *)

(** From [depth] open parentheses, the tokens close each of them and every
    one they open, and never close one that is not open. *)
Fixpoint balanced_from (depth : nat) (tokens : list str) : bool :=
  match tokens with
  | [] => depth =? 0
  | t :: rest =>
      if str_eqb t (py "(") then balanced_from (S depth) rest
      else if str_eqb t (py ")") then
        match depth with
        | O => false
        | S d => balanced_from d rest
        end
      else balanced_from depth rest
  end.

(** *** Expressions without quantifiers, and the expansion as units *)

(** The characters of a string as literal units without quantifiers. *)
Fixpoint lit_units (cs : str) : units :=
  match cs with
  | [] => UNil
  | c :: cs' => UCons (Lit c) None (lit_units cs')
  end.


Fixpoint quantifier_free_unit (u : regex_unit) : bool :=
  match u with
  | Grp body => quantifier_free body
  | _ => true
  end
with quantifier_free (e : units) : bool :=
  match e with
  | UNil => true
  | UCons u None rest => quantifier_free_unit u && quantifier_free rest
  | UCons _ (Some _) _ => false
  end.

(** [X+ -> XX*] and [X? -> (X|ε)] on the units themselves. *)
Fixpoint rewrite_unit (u : regex_unit) : regex_unit :=
  match u with
  | Grp body => Grp (rewrite_units body)
  | _ => u
  end
with rewrite_units (e : units) : units :=
  match e with
  | UNil => UNil
  | UCons u q rest =>
      let u' := rewrite_unit u in
      match q with
      | None => UCons u' None (rewrite_units rest)
      | Some QPlus =>
          UCons u' None (UCons u' None (UCons (Lit star) None (rewrite_units rest)))
      | Some QQuestion =>
          UCons (Grp (UCons u' None
                        (UCons (Lit bar) None (UCons (Lit epsilon) None UNil))))
            None (rewrite_units rest)
      end
  end.

(** * Properties *)

(** ** Basic facts *)

Lemma py_utf8 : py "(a|ε)" = [lparen; 97%N; bar; epsilon; rparen].
Proof. reflexivity. Qed.

Lemma char_eqb_eq (a b : char) : char_eqb a b = true <-> a = b.
Proof. apply N.eqb_eq. Qed.

Lemma str_eqb_eq (s t : str) : str_eqb s t = true <-> s = t.
Proof.
  revert t; induction s as [|a s IH]; intros [|b t]; simpl;
    try (split; [discriminate | discriminate]).
  - split; reflexivity.
  - rewrite andb_true_iff, char_eqb_eq, IH. split.
    + intros [-> ->]. reflexivity.
    + intros H. injection H as -> ->. split; reflexivity.
Qed.

Lemma str_eqb_refl (s : str) : str_eqb s s = true.
Proof. now apply str_eqb_eq. Qed.

Lemma str_in_In (x : str) (l : list str) : str_in x l = true <-> In x l.
Proof.
  unfold str_in. rewrite existsb_exists. split.
  - intros (y & Hy & E). apply str_eqb_eq in E. now subst.
  - intros H. exists x. split; [assumption | apply str_eqb_refl].
Qed.

Lemma str_in_cons (x a : str) (l : list str) :
  str_in x (a :: l) = str_eqb x a || str_in x l.
Proof. reflexivity. Qed.

(** ** The two converters agree *)

Lemma isalnum_epsilon : isalnum (py "ε") = true.
Proof. vm_compute. reflexivity. Qed.

Lemma is_operand_regex_simp (token : str) :
  Regex.is_operand token = Simp.is_operand token.
Proof.
  unfold Regex.is_operand, Simp.is_operand.
  destruct (startswith_backslash token); [reflexivity|].
  rewrite !orb_false_l.
  destruct (length token =? 1); [|reflexivity].
  rewrite !andb_true_l.
  destruct (str_eqb token (py "ε")) eqn:E.
  - apply str_eqb_eq in E. subst token. rewrite isalnum_epsilon. reflexivity.
  - rewrite !str_in_cons, E. reflexivity.
Qed.

Section ShuntingYardExt.

Variables f g : str -> bool.
Hypothesis fg : forall token, f token = g token.

Lemma sy_step_ext (st : sy_state) (token : str) :
  sy_step f st token = sy_step g st token.
Proof. unfold sy_step. destruct st. now rewrite fg. Qed.

Lemma sy_loop_ext (tokens : list str) : sy_loop f tokens = sy_loop g tokens.
Proof.
  unfold sy_loop. generalize (mk_sy [] [] []).
  induction tokens as [|t ts IH]; intros st; simpl; [reflexivity|].
  now rewrite sy_step_ext, IH.
Qed.

Lemma shunting_yard_with_ext (tokens : list str) :
  shunting_yard_with f tokens = shunting_yard_with g tokens.
Proof. unfold shunting_yard_with. now rewrite sy_loop_ext. Qed.

End ShuntingYardExt.

(** C10. On every token sequence the converter of [shunting_yard_regex.py]
    and the converter of [shunting_yard_simp.py] return the same postfix
    list and the same trace: the extra literal ε of the second operand
    test is already accepted by [isalnum]. *)
Theorem shunting_yard_regex_simp (tokens : list str) :
  Regex.shunting_yard tokens = Simp.shunting_yard tokens.
Proof.
  unfold Regex.shunting_yard, Simp.shunting_yard.
  apply shunting_yard_with_ext, is_operand_regex_simp.
Qed.

(** ** The converter on the examples of the specification *)

Lemma pop_end_output (out stk : list str) (ps : list paso) :
  output (pop_end out stk ps) = out ++ stk.
Proof.
  revert out ps; induction stk as [|op stk IH]; intros out ps; simpl.
  - now rewrite app_nil_r.
  - rewrite IH, <- app_assoc. reflexivity.
Qed.

(** Whatever the loop leaves on the operator stack goes to the postfix
    output, top first. *)
Lemma shunting_yard_output (is_operand : str -> bool) (tokens : list str) :
  fst (shunting_yard_with is_operand tokens)
  = output (sy_loop is_operand tokens) ++ stack (sy_loop is_operand tokens).
Proof. unfold shunting_yard_with. simpl. apply pop_end_output. Qed.

Section LoopOutput.

Variable is_operand : str -> bool.
Hypothesis lparen_not_operand : is_operand (py "(") = false.

Lemma not_in_snoc (out : list str) (op : str) :
  ~ In (py "(") out -> str_eqb op (py "(") = false -> ~ In (py "(") (out ++ [op]).
Proof.
  intros Hout Hop Hin. apply in_app_or in Hin as [Hin|[E|[]]]; [auto|].
  rewrite E, str_eqb_refl in Hop. discriminate.
Qed.

Lemma pop_for_rparen_output (stk : list str) :
  forall out ps, ~ In (py "(") out ->
    ~ In (py "(") (output (pop_for_rparen out stk ps)).
Proof.
  induction stk as [|op stk IH]; intros out ps Hout; cbn [pop_for_rparen];
    [assumption|].
  destruct (str_eqb op (py "(")) eqn:E; cbn [negb]; [assumption|].
  apply IH. now apply not_in_snoc.
Qed.

Lemma pop_ops_output (token : str) (stk : list str) :
  forall out ps, ~ In (py "(") out ->
    ~ In (py "(") (output (pop_ops token out stk ps)).
Proof.
  induction stk as [|top stk IH]; intros out ps Hout; cbn [pop_ops];
    [assumption|].
  destruct (precedence token <=? precedence top); [|assumption].
  destruct (str_eqb top (py "(")) eqn:E; [assumption|].
  apply IH. now apply not_in_snoc.
Qed.

Lemma sy_step_output (st : sy_state) (token : str) :
  ~ In (py "(") (output st) -> ~ In (py "(") (output (sy_step is_operand st token)).
Proof.
  destruct st as [out stk ps]. cbn [output]. intros Hout. unfold sy_step.
  destruct (is_operand token) eqn:Eop.
  - cbn [output]. apply not_in_snoc; [assumption|].
    destruct (str_eqb token (py "(")) eqn:E; [|reflexivity].
    apply str_eqb_eq in E. subst token. congruence.
  - destruct (str_eqb token (py "(")); [assumption|].
    destruct (str_eqb token (py ")")).
    + pose proof (pop_for_rparen_output stk out ps Hout) as H.
      destruct (pop_for_rparen out stk ps) as [out1 stk1 ps1]. cbn [output] in H.
      destruct stk1 as [|top stk2]; [assumption|].
      destruct (str_eqb top (py "(")); assumption.
    + destruct (str_in token [py "|"; py "."; py "*"; py "+"; py "?"]);
        [|assumption].
      pose proof (pop_ops_output token stk out ps Hout) as H.
      now destruct (pop_ops token out stk ps) as [out1 stk1 ps1].
Qed.

(** No branch of the loop moves a ['('] to the output. *)
Lemma sy_loop_output (tokens : list str) :
  ~ In (py "(") (output (sy_loop is_operand tokens)).
Proof.
  unfold sy_loop.
  assert (H : ~ In (py "(") (output (mk_sy [] [] []))) by (intros []).
  revert H. generalize (mk_sy [] [] []).
  induction tokens as [|t ts IH]; intros st H; cbn [fold_left]; [assumption|].
  apply IH. now apply sy_step_output.
Qed.

End LoopOutput.

(** C1. On every token sequence the postfix output of the converter is the
    output of its loop, in which there is no ['('], followed by all that
    the loop has left on the operator stack: a ['('] left there is emitted
    by the final loop, not dropped.  On the tokens of [(a|b] the loop ends
    with ['('] on the stack and the postfix output is [a b | (]; the tree
    builder then reads ['('] as a literal and returns that leaf instead of
    the tree of [a|b].  With the expander in front, the unclosed group
    loses its last character and the builder raises [IndexError]. *)
Theorem unmatched_lparen_is_emitted (tokens : list str) :
  (fst (Regex.shunting_yard tokens)
   = output (sy_loop Regex.is_operand tokens)
     ++ stack (sy_loop Regex.is_operand tokens)
   /\ ~ In (py "(") (output (sy_loop Regex.is_operand tokens)))
  /\ insert_concatenation (py "(a|b") = Ok [py "("; py "a"; py "|"; py "b"]
  /\ stack (sy_loop Regex.is_operand [py "("; py "a"; py "|"; py "b"])
     = [py "|"; py "("]
  /\ fst (Regex.shunting_yard [py "("; py "a"; py "|"; py "b"])
     = [py "a"; py "b"; py "|"; py "("]
  /\ Regex.pipeline (py "(a|b") = Ok (leaf (py "("))
  /\ Regex.pipeline (py "a|b")
     = Ok (mkRegexNode (py "|") (Some (leaf (py "a"))) (Some (leaf (py "b"))))
  /\ Simp.pipeline (py "(a|b") = Raise IndexError.
Proof.
  split.
  - split; [apply shunting_yard_output | now apply sy_loop_output].
  - repeat split; vm_compute; reflexivity.
Qed.

(** C5. [a|bc*] becomes the tokens [a | b . c *] and the postfix
    [a b c * . |]; [precedence] ranks the quantifiers (3) above the
    concatenation (2) above the alternation (1). *)
Theorem precedence_law :
  insert_concatenation (py "a|bc*")
  = Ok [py "a"; py "|"; py "b"; py "."; py "c"; py "*"]
  /\ fst (Regex.shunting_yard [py "a"; py "|"; py "b"; py "."; py "c"; py "*"])
     = [py "a"; py "b"; py "c"; py "*"; py "."; py "|"]
  /\ fst (Simp.shunting_yard [py "a"; py "|"; py "b"; py "."; py "c"; py "*"])
     = [py "a"; py "b"; py "c"; py "*"; py "."; py "|"]
  /\ precedence (py "*") = 3 /\ precedence (py "+") = 3 /\ precedence (py "?") = 3
  /\ precedence (py ".") = 2 /\ precedence (py "|") = 1
  /\ precedence (py "|") < precedence (py ".")
  /\ precedence (py ".") < precedence (py "*")
  /\ precedence (py ".") < precedence (py "+")
  /\ precedence (py ".") < precedence (py "?").
Proof. repeat split; vm_compute; solve [reflexivity | lia]. Qed.

(** C6. [(a|b)c] becomes the tokens [( a | b ) . c] and the postfix
    [a b | c .]: the group is closed before the concatenation applies. *)
Theorem grouping_overrides_precedence :
  insert_concatenation (py "(a|b)c")
  = Ok [py "("; py "a"; py "|"; py "b"; py ")"; py "."; py "c"]
  /\ fst (Regex.shunting_yard
            [py "("; py "a"; py "|"; py "b"; py ")"; py "."; py "c"])
     = [py "a"; py "b"; py "|"; py "c"; py "."]
  /\ fst (Simp.shunting_yard
            [py "("; py "a"; py "|"; py "b"; py ")"; py "."; py "c"])
     = [py "a"; py "b"; py "|"; py "c"; py "."].
Proof. repeat split; vm_compute; reflexivity. Qed.

(** ** The tree builder *)

Lemma build_loop_app (stk : list RegexNode) (pre post : list str) :
  build_loop stk (pre ++ post) = (stk' <- build_loop stk pre ;; build_loop stk' post).
Proof.
  revert stk; induction pre as [|tok pre IH]; intros stk; simpl; [reflexivity|].
  destruct (build_step stk tok) as [stk'| |]; simpl; auto.
Qed.

Lemma binary_not_unary (tok : str) :
  str_in tok [py "."; py "|"] = true -> str_in tok [py "*"; py "+"; py "?"] = false.
Proof.
  intros H. apply str_in_In in H.
  destruct H as [<-|[<-|[]]]; vm_compute; reflexivity.
Qed.

Lemma build_step_underflow (stk : list RegexNode) (tok : str) :
  length stk < arity tok -> build_step stk tok = Raise IndexError.
Proof.
  unfold arity, build_step.
  destruct (str_in tok [py "*"; py "+"; py "?"]).
  - destruct stk; simpl; [reflexivity | lia].
  - destruct (str_in tok [py "."; py "|"]); [|lia].
    destruct stk as [|n1 [|n2 stk]]; simpl; try reflexivity; lia.
Qed.




(** C4. When the builder reaches an operator while its stack holds fewer
    nodes than the operator takes, [build_syntax_tree] raises (the
    [IndexError] of [pop] on an empty list) and returns no tree. *)
Theorem build_syntax_tree_underflow
  (pre post : list str) (tok : str) (stk : list RegexNode) :
  build_loop [] pre = Ok stk ->
  length stk < arity tok ->
  build_syntax_tree (pre ++ tok :: post) = Raise IndexError.
Proof.
  intros Hpre Hlt. unfold build_syntax_tree.
  rewrite build_loop_app, Hpre. simpl.
  now rewrite (build_step_underflow stk tok Hlt).
Qed.

Lemma build_syntax_tree_underflow_witness :
  build_syntax_tree [py "a"; py "*"; py "."] = Raise IndexError.
Proof.
  apply (@build_syntax_tree_underflow [py "a"; py "*"] [] (py ".")
           [mkRegexNode (py "*") (Some (leaf (py "a"))) None]).
  - reflexivity.
  - vm_compute. lia.
Defined.

(** C8. A unary operator takes the node it pops as its left child and has
    no right child; a binary operator takes the node popped first as its
    right child and the node popped second as its left child.  On
    [a b . c |] the root is ['|'], with left child ['.'] over the leaves
    [a] and [b], and right child the leaf [c]. *)
Theorem build_children (pre : list str) (tok : str) (stk0 : list RegexNode) :
  build_loop [] pre = Ok stk0 ->
  (str_in tok [py "*"; py "+"; py "?"] = true ->
   forall child stk, stk0 = child :: stk ->
     build_loop [] (pre ++ [tok]) = Ok (mkRegexNode tok (Some child) None :: stk))
  /\ (str_in tok [py "."; py "|"] = true ->
      forall right_ left_ stk, stk0 = right_ :: left_ :: stk ->
        build_loop [] (pre ++ [tok])
        = Ok (mkRegexNode tok (Some left_) (Some right_) :: stk))
  /\ build_syntax_tree [py "a"; py "b"; py "."; py "c"; py "|"]
     = Ok (mkRegexNode (py "|")
             (Some (mkRegexNode (py ".") (Some (leaf (py "a"))) (Some (leaf (py "b")))))
             (Some (leaf (py "c")))).
Proof.
  intros Hpre. split; [|split].
  - intros Hu child stk ->. rewrite build_loop_app, Hpre. simpl.
    unfold build_step. rewrite Hu. reflexivity.
  - intros Hb right_ left_ stk ->. rewrite build_loop_app, Hpre. simpl.
    unfold build_step. rewrite (binary_not_unary _ Hb), Hb. reflexivity.
  - reflexivity.
Qed.

Lemma build_children_witness :
  build_loop [] ([py "a"; py "b"] ++ [py "."])
  = Ok [mkRegexNode (py ".") (Some (leaf (py "a"))) (Some (leaf (py "b")))]
  /\ build_loop [] ([py "a"] ++ [py "*"])
     = Ok [mkRegexNode (py "*") (Some (leaf (py "a"))) None].
Proof.
  split.
  - apply (proj1 (proj2 (@build_children [py "a"; py "b"] (py ".")
                           [leaf (py "b"); leaf (py "a")] eq_refl)));
      reflexivity.
  - apply (proj1 (@build_children [py "a"] (py "*") [leaf (py "a")] eq_refl));
      reflexivity.
Defined.

(** ** The tokenizer and the inserter *)

Lemma get_app (pre : str) (c : char) (suf : str) :
  get (pre ++ c :: suf) (length pre) = Ok c.
Proof. unfold get. now rewrite nth_error_app2, Nat.sub_diag by lia. Qed.

Lemma slice_app2 (pre : str) (c d : char) (suf : str) :
  slice (pre ++ c :: d :: suf) (length pre) (length pre + 2) = [c; d].
Proof.
  unfold slice. rewrite skipn_app, skipn_all, Nat.sub_diag. simpl.
  replace (length pre + 2 - length pre) with 2 by lia. reflexivity.
Qed.

Lemma tokenize_loop_spec (fuel : nat) :
  forall (pre suf : str) (tokens : list str),
    length suf <= fuel ->
    tokenize_loop fuel (pre ++ suf) (length pre) tokens = Ok (tokens ++ tokens_of suf).
Proof.
  induction fuel as [fuel IH] using lt_wf_ind.
  intros pre [|c suf] tokens Hfuel.
  - destruct fuel; simpl; rewrite !app_nil_r, Nat.ltb_irrefl; reflexivity.
  - destruct fuel as [|fuel]; [simpl in Hfuel; lia|].
    cbn [tokenize_loop].
    replace (length pre <? length (pre ++ c :: suf)) with true
      by (symmetry; apply Nat.ltb_lt; rewrite length_app; simpl; lia).
    rewrite get_app. cbn [bind tokens_of].
    destruct (char_eqb c backslash) eqn:Ec; cbn [andb].
    + destruct suf as [|d suf].
      * replace (length pre + 1 <? length (pre ++ [c])) with false
          by (symmetry; apply Nat.ltb_ge; rewrite length_app; simpl; lia).
        replace (pre ++ [c]) with ((pre ++ [c]) ++ []) at 1 by apply app_nil_r.
        replace (length pre + 1) with (length (pre ++ [c]))
          by (rewrite length_app; reflexivity).
        rewrite IH; [now rewrite app_nil_r | lia | simpl; lia].
      * replace (length pre + 1 <? length (pre ++ c :: d :: suf)) with true
          by (symmetry; apply Nat.ltb_lt; rewrite length_app; simpl; lia).
        rewrite slice_app2.
        replace (pre ++ c :: d :: suf) with ((pre ++ [c; d]) ++ suf)
          by (rewrite <- app_assoc; reflexivity).
        replace (length pre + 2) with (length (pre ++ [c; d]))
          by (rewrite length_app; reflexivity).
        rewrite IH; [now rewrite <- app_assoc | lia | simpl in Hfuel; lia].
    + replace (pre ++ c :: suf) with ((pre ++ [c]) ++ suf)
        by (rewrite <- app_assoc; reflexivity).
      replace (length pre + 1) with (length (pre ++ [c]))
        by (rewrite length_app; reflexivity).
      rewrite IH; [now rewrite <- app_assoc | lia | simpl in Hfuel; lia].
Qed.

(** The tokenizer returns on every string, with the tokens of the string. *)
Lemma tokenize_spec (expr : str) : tokenize expr = Ok (tokens_of expr).
Proof.
  unfold tokenize.
  apply (tokenize_loop_spec (fuel := length expr) [] expr []). lia.
Qed.

Lemma insert_loop_spec (todo : list str) :
  forall (pre : list str) (prev : str) (res : list str),
    insert_loop (pre ++ prev :: todo) (S (length pre)) todo res
    = Ok (res ++ dots_from prev todo).
Proof.
  induction todo as [|tok todo IH]; intros pre prev res;
    cbn [insert_loop dots_from].
  - now rewrite app_nil_r.
  - change (0 <? S (length pre)) with true. cbv iota.
    rewrite Nat.sub_succ, Nat.sub_0_r, nth_error_app2, Nat.sub_diag by lia.
    cbn [nth_error]. fold (needs_dot prev tok).
    replace (pre ++ prev :: tok :: todo) with ((pre ++ [prev]) ++ tok :: todo)
      by (rewrite <- app_assoc; reflexivity).
    replace (S (S (length pre))) with (S (length (pre ++ [prev])))
      by (rewrite length_app; simpl; lia).
    destruct (needs_dot prev tok); cbn [bind]; rewrite IH; f_equal;
      rewrite <- !app_assoc; reflexivity.
Qed.

(** [insert_concatenation] returns on every string. *)
Lemma insert_concatenation_spec (expr : str) :
  insert_concatenation expr = Ok (with_dots (tokens_of expr)).
Proof.
  unfold insert_concatenation. rewrite tokenize_spec. simpl.
  destruct (tokens_of expr) as [|tok todo]; [reflexivity|].
  simpl. apply (insert_loop_spec todo [] tok [tok]).
Qed.

(** *** Escaped positions *)

Lemma odd_run_snoc (pre : str) (c : char) :
  odd_run (pre ++ [c]) = if char_eqb c backslash then negb (odd_run pre) else false.
Proof.
  unfold odd_run. rewrite rev_app_distr. cbn [rev app run].
  destruct (char_eqb c backslash); [|reflexivity].
  rewrite Nat.odd_succ, Nat.negb_odd. reflexivity.
Qed.

Lemma is_escaped_loop_spec (pre suf : str) (cnt : nat) :
  Simp.is_escaped_loop (pre ++ suf) (length pre) cnt = Ok (cnt + run (rev pre)).
Proof.
  revert suf cnt. induction pre as [|c pre IH] using rev_ind; intros suf cnt.
  - simpl. now rewrite Nat.add_0_r.
  - rewrite length_app, Nat.add_1_r, <- app_assoc. cbn [Simp.is_escaped_loop app].
    rewrite get_app. cbn [bind]. rewrite rev_app_distr. cbn [rev app run].
    destruct (char_eqb c backslash).
    + rewrite IH. f_equal. lia.
    + now rewrite Nat.add_0_r.
Qed.

Lemma odd_mod2 (n : nat) : (n mod 2 =? 1) = Nat.odd n.
Proof. rewrite <- Nat.bit0_mod, Nat.bit0_odd. now destruct (Nat.odd n). Qed.

(** [is_escaped] at the end of the prefix [pre] tells whether [pre] ends
    with an odd number of backslashes. *)
Lemma is_escaped_spec (pre suf : str) :
  Simp.is_escaped (pre ++ suf) (length pre) = Ok (odd_run pre).
Proof.
  unfold Simp.is_escaped. rewrite is_escaped_loop_spec. cbn [bind].
  now rewrite odd_mod2.
Qed.

Lemma tokens_of_trailing_backslash (n : nat) :
  forall pre suf : str,
    length suf <= n ->
    odd_run pre = false ->
    odd_run (pre ++ suf) = false ->
    tokens_of (suf ++ [backslash]) = tokens_of suf ++ [[backslash]].
Proof.
  induction n as [n IH] using lt_wf_ind.
  intros pre [|c suf] Hn Hpre Hall; [reflexivity|].
  cbn [app tokens_of].
  destruct (char_eqb c backslash) eqn:Ec.
  - destruct suf as [|d suf].
    + rewrite odd_run_snoc, Ec, Hpre in Hall. discriminate.
    + cbn [app]. f_equal.
      apply (IH (length suf)) with (pre := pre ++ [c; d]).
      * simpl in Hn. lia.
      * lia.
      * change (pre ++ [c; d]) with (pre ++ [c] ++ [d]).
        rewrite app_assoc, !odd_run_snoc, Ec, Hpre.
        now destruct (char_eqb d backslash).
      * now rewrite <- app_assoc.
  - cbn [app]. f_equal. apply (IH (length suf)) with (pre := pre ++ [c]).
    + simpl in Hn. lia.
    + lia.
    + now rewrite odd_run_snoc, Ec.
    + now rewrite <- app_assoc.
Qed.

Lemma last_dots_from (todo : list str) :
  forall prev d, last (dots_from prev todo) d = last todo d.
Proof.
  induction todo as [|tok todo IH]; intros prev d; [reflexivity|].
  cbn [dots_from].
  assert (E : forall l, last (l ++ tok :: dots_from tok todo) d
                        = last (tok :: dots_from tok todo) d).
  { intros l. induction l as [|x l IHl]; [reflexivity|].
    simpl app. rewrite <- IHl. destruct (l ++ tok :: dots_from tok todo) eqn:El.
    - destruct l; discriminate.
    - reflexivity. }
  rewrite E. destruct todo as [|tok' todo].
  - reflexivity.
  - specialize (IH tok d). cbn [dots_from] in IH |- *.
    change (last (tok :: tok' :: todo) d) with (last (tok' :: todo) d).
    rewrite <- IH.
    destruct (needs_dot tok tok'); reflexivity.
Qed.

Lemma last_with_dots (tokens : list str) (d : str) :
  last (with_dots tokens) d = last tokens d.
Proof.
  destruct tokens as [|tok todo]; [reflexivity|].
  unfold with_dots. destruct todo as [|tok' todo]; [reflexivity|].
  change (last (tok :: tok' :: todo) d) with (last (tok' :: todo) d).
  rewrite <- (last_dots_from (tok' :: todo) tok d).
  cbn [dots_from]. destruct (needs_dot tok tok'); reflexivity.
Qed.

(** C9 (as the code has it). The tokenizer returns on every string, with no
    error; a final backslash that is not itself escaped is not dropped: it
    is the last token, on its own, also after the insertion of the dots. *)
Theorem tokenizer_keeps_trailing_backslash (expr s : str) :
  (exists tokens, tokenize expr = Ok tokens)
  /\ (Simp.is_escaped (s ++ [backslash]) (length s) = Ok false ->
      exists tokens result_,
        tokenize s = Ok tokens
        /\ tokenize (s ++ [backslash]) = Ok (tokens ++ [[backslash]])
        /\ insert_concatenation (s ++ [backslash]) = Ok result_
        /\ last result_ [] = [backslash]).
Proof.
  split.
  - exists (tokens_of expr). apply tokenize_spec.
  - rewrite is_escaped_spec. intros He. injection He as He.
    assert (E : tokens_of (s ++ [backslash]) = tokens_of s ++ [[backslash]]).
    { apply (tokens_of_trailing_backslash (n := length s)) with (pre := []);
        [lia | reflexivity | assumption]. }
    exists (tokens_of s), (with_dots (tokens_of s ++ [[backslash]])).
    rewrite !tokenize_spec, insert_concatenation_spec, E.
    repeat split. rewrite last_with_dots. apply last_last.
Qed.

Lemma tokenizer_keeps_trailing_backslash_witness :
  (exists tokens, tokenize (py "ab") = Ok tokens)
  /\ exists tokens result_,
       tokenize (py "a") = Ok tokens
       /\ tokenize (py "a" ++ [backslash]) = Ok (tokens ++ [[backslash]])
       /\ insert_concatenation (py "a" ++ [backslash]) = Ok result_
       /\ last result_ [] = [backslash].
Proof.
  split.
  - apply (proj1 (tokenizer_keeps_trailing_backslash (py "ab") (py "a"))).
  - apply (proj2 (tokenizer_keeps_trailing_backslash (py "ab") (py "a"))).
    reflexivity.
Defined.

(** C9, refuted as stated: the final backslash of [a\] is a token. *)
Lemma trailing_backslash_is_a_token :
  tokenize (py "a\") = Ok [py "a"; py "\"]
  /\ insert_concatenation (py "a\") = Ok [py "a"; py "."; py "\"].
Proof. split; reflexivity. Qed.

(** *** Dots between plain characters *)

Lemma plain_char_spec (c : char) :
  plain_char c = true ->
  char_eqb c backslash = false /\ char_eqb c bar = false
  /\ char_eqb c lparen = false /\ char_eqb c rparen = false
  /\ char_eqb c star = false /\ char_eqb c plus = false
  /\ char_eqb c question = false.
Proof.
  unfold plain_char. rewrite negb_true_iff. cbn [existsb].
  rewrite !orb_false_iff. tauto.
Qed.

Lemma needs_dot_plain (c d : char) :
  plain_char c = true -> plain_char d = true -> needs_dot [c] [d] = true.
Proof.
  intros Hc Hd.
  apply plain_char_spec in Hc as (_ & Hc1 & Hc2 & _).
  apply plain_char_spec in Hd as (_ & Hd1 & _ & Hd2 & Hd3 & Hd4 & Hd5).
  unfold needs_dot, str_in.
  change (py "|") with [bar]. change (py "(") with [lparen].
  change (py ")") with [rparen]. change (py "*") with [star].
  change (py "+") with [plus]. change (py "?") with [question].
  cbn [existsb str_eqb].
  now rewrite Hc1, Hc2, Hd1, Hd2, Hd3, Hd4, Hd5.
Qed.

Lemma tokens_of_plain (expr : str) :
  forallb plain_char expr = true -> tokens_of expr = map (fun c => [c]) expr.
Proof.
  induction expr as [|c expr IH]; [reflexivity|].
  cbn [forallb]. rewrite andb_true_iff. intros [Hc Hexpr].
  apply plain_char_spec in Hc as (Hc & _).
  cbn [tokens_of map]. rewrite Hc. f_equal. now apply IH.
Qed.

Lemma dots_from_plain (expr : str) :
  forall c, plain_char c = true -> forallb plain_char expr = true ->
    [c] :: dots_from [c] (map (fun x => [x]) expr)
    = dotted (map (fun x => [x]) (c :: expr)).
Proof.
  induction expr as [|d expr IH]; intros c Hc Hexpr; [reflexivity|].
  cbn [forallb] in Hexpr. apply andb_true_iff in Hexpr as [Hd Hexpr].
  cbn [map dots_from dotted]. rewrite (needs_dot_plain c d Hc Hd).
  cbn [app]. do 2 f_equal. now apply IH.
Qed.

Lemma dotted_plain (expr : str) :
  forallb plain_char expr = true ->
  forallb plain_char (concat (dotted (map (fun c => [c]) expr))) = true.
Proof.
  induction expr as [|c expr IH]; [reflexivity|].
  cbn [forallb]. rewrite andb_true_iff. intros [Hc Hexpr].
  specialize (IH Hexpr). destruct expr as [|d expr].
  - cbn. now rewrite Hc.
  - cbn [map dotted concat app forallb] in IH |- *.
    change (py ".") with [dot]. cbn [app forallb].
    rewrite Hc. change (plain_char dot) with true. exact IH.
Qed.

(** C3 (as the code has it). A ['.'] is to the inserter a token like any
    other: on a string of characters other than [\ | ( ) * + ?] it puts a
    ['.'] between every two adjacent characters, an existing ['.']
    included, and what it returns is again such a string.  Run on its own
    output it therefore inserts further dots. *)
Theorem insert_concatenation_plain (expr : str) :
  forallb plain_char expr = true ->
  insert_concatenation expr = Ok (dotted (map (fun c => [c]) expr))
  /\ forallb plain_char (concat (dotted (map (fun c => [c]) expr))) = true.
Proof.
  intros H. split; [|now apply dotted_plain].
  rewrite insert_concatenation_spec, (tokens_of_plain _ H).
  destruct expr as [|c expr]; [reflexivity|].
  cbn [forallb] in H. apply andb_true_iff in H as [Hc Hexpr].
  cbn [with_dots map]. f_equal. now apply dots_from_plain.
Qed.

Lemma insert_concatenation_plain_witness :
  insert_concatenation (py "a.b") = Ok [py "a"; py "."; py "."; py "."; py "b"]
  /\ forallb plain_char (py "a...b") = true.
Proof. apply (insert_concatenation_plain (py "a.b")). reflexivity. Defined.

(** C3, refuted as stated: the inserter turns [ab] into [a . b], and run
    again on the string [a.b] of these tokens it returns [a . . . b]. *)
Lemma insert_concatenation_not_idempotent :
  insert_concatenation (py "ab") = Ok [py "a"; py "."; py "b"]
  /\ concat [py "a"; py "."; py "b"] = py "a.b"
  /\ insert_concatenation (py "a.b") = Ok [py "a"; py "."; py "."; py "."; py "b"]
  /\ insert_concatenation (py "a.b") <> Ok [py "a"; py "."; py "b"].
Proof. repeat split; try reflexivity. vm_compute. discriminate. Qed.


(** ** The quantifier expander *)

Lemma ltb_length_app {A : Type} (pre : list A) (c : A) (suf : list A) :
  (length pre <? length (pre ++ c :: suf)) = true.
Proof. apply Nat.ltb_lt. rewrite length_app. simpl. lia. Qed.

Lemma ltb_length_nil {A : Type} (pre : list A) :
  (length pre <? length (pre ++ [])) = false.
Proof. rewrite app_nil_r. apply Nat.ltb_irrefl. Qed.

Lemma snoc_app {A : Type} (pre : list A) (c : A) (suf : list A) :
  pre ++ c :: suf = (pre ++ [c]) ++ suf.
Proof. now rewrite <- app_assoc. Qed.

Lemma length_snoc {A : Type} (pre : list A) (c : A) :
  length (pre ++ [c]) = length pre + 1.
Proof. apply length_app. Qed.

Lemma and_not_escaped_spec (b : bool) (pre suf : str) :
  Simp.and_not_escaped b (pre ++ suf) (length pre) = Ok (b && negb (odd_run pre)).
Proof.
  unfold Simp.and_not_escaped. destruct b; [|reflexivity].
  now rewrite is_escaped_spec.
Qed.

Lemma scan_group_spec (suf : str) :
  forall (fuel : nat) (pre : str) (depth : nat),
    length suf <= fuel ->
    Simp.scan_group fuel (pre ++ suf) (length pre) depth
    = Ok (length pre + fst (scan (odd_run pre) suf depth),
          snd (scan (odd_run pre) suf depth)).
Proof.
  induction suf as [|c suf IH]; intros fuel pre depth Hfuel.
  - destruct fuel; cbn [Simp.scan_group scan fst snd];
      rewrite ltb_length_nil, Nat.add_0_r; reflexivity.
  - destruct depth as [|d].
    + destruct fuel; cbn [Simp.scan_group scan fst snd];
        rewrite ltb_length_app, Nat.add_0_r; reflexivity.
    + destruct fuel as [|fuel]; [simpl in Hfuel; lia|].
      cbn [Simp.scan_group scan fst snd].
      rewrite ltb_length_app. change (0 <? S d) with true. cbn [andb].
      rewrite get_app. cbn [bind].
      rewrite !and_not_escaped_spec. cbn [bind].
      assert (Hrec : forall depth',
        Simp.scan_group fuel (pre ++ c :: suf) (length pre + 1) depth'
        = Ok (length pre
              + S (fst (scan (if char_eqb c backslash then negb (odd_run pre) else false)
                          suf depth')),
              snd (scan (if char_eqb c backslash then negb (odd_run pre) else false)
                     suf depth'))).
      { intros depth'.
        rewrite snoc_app, <- (length_snoc pre c), IH by (simpl in Hfuel; lia).
        rewrite odd_run_snoc, length_snoc. f_equal. f_equal. lia. }
      destruct (char_eqb c lparen && negb (odd_run pre)).
      * replace (S d + 1) with (S (S d)) by lia. apply Hrec.
      * destruct (char_eqb c rparen && negb (odd_run pre)).
        -- replace (S d - 1) with d by lia. apply Hrec.
        -- apply Hrec.
Qed.

Lemma unit_char_spec (c : char) :
  unit_char c = true ->
  char_eqb c backslash = false /\ char_eqb c lparen = false
  /\ char_eqb c rparen = false /\ char_eqb c plus = false
  /\ char_eqb c question = false.
Proof.
  unfold unit_char. rewrite negb_true_iff. cbn [existsb].
  rewrite !orb_false_iff. tauto.
Qed.

(** A character that is neither a parenthesis nor a backslash leaves the
    depth of the scan as it is. *)
Lemma scan_other (c : char) (t : str) (d : nat) :
  char_eqb c backslash = false -> char_eqb c lparen = false ->
  char_eqb c rparen = false ->
  scan false (c :: t) (S d)
  = (1 + fst (scan false t (S d)), snd (scan false t (S d))).
Proof. intros Hb Hl Hr. cbn [scan]. rewrite Hb, Hl, Hr. reflexivity. Qed.

(** So does an escaped character, whatever it is. *)
Lemma scan_escape (c : char) (t : str) (d : nat) :
  scan false (backslash :: c :: t) (S d)
  = (2 + fst (scan false t (S d)), snd (scan false t (S d))).
Proof.
  cbn [scan]. change (char_eqb backslash backslash) with true.
  change (char_eqb backslash lparen) with false.
  change (char_eqb backslash rparen) with false.
  cbn [negb andb]. rewrite !andb_false_r.
  destruct (char_eqb c backslash); reflexivity.
Qed.

Lemma scan_quantifier (q : option quantifier) (t : str) (d : nat) :
  scan false (render_quantifier q ++ t) (S d)
  = (length (render_quantifier q) + fst (scan false t (S d)),
     snd (scan false t (S d))).
Proof.
  destruct q as [[|]|]; cbn [render_quantifier app length].
  - now apply scan_other.
  - now apply scan_other.
  - cbn [Nat.add]. now destruct (scan false t (S d)).
Qed.

(** The scan passes a well-formed unit, and a sequence of them, and ends
    with the depth it started with. *)
Lemma scan_render :
  (forall u, wf_unit u = true -> forall t d,
     scan false (render_unit u ++ t) (S d)
     = (length (render_unit u) + fst (scan false t (S d)),
        snd (scan false t (S d))))
  /\ (forall e, wf_units e = true -> forall t d,
        scan false (render_units e ++ t) (S d)
        = (length (render_units e) + fst (scan false t (S d)),
           snd (scan false t (S d)))).
Proof.
  apply regex_unit_units_ind.
  - intros c Hc t d. apply unit_char_spec in Hc as (Hb & Hl & Hr & _).
    now apply scan_other.
  - intros c _ t d. apply scan_escape.
  - intros body IH Hwf t d. cbn [wf_unit] in Hwf.
    cbn [render_unit app]. rewrite <- app_assoc. cbn [app].
    cbn [scan]. change (char_eqb lparen backslash) with false.
    change (char_eqb lparen lparen) with true. cbn [negb andb].
    rewrite (IH Hwf). cbn [fst snd].
    cbn [scan]. change (char_eqb rparen backslash) with false.
    change (char_eqb rparen lparen) with false.
    change (char_eqb rparen rparen) with true. cbn [negb andb fst snd].
    cbn [length]. rewrite length_app. cbn [length]. f_equal. lia.
  - intros _ t d. cbn [render_units app length Nat.add].
    now destruct (scan false t (S d)).
  - intros u IHu q rest IHrest Hwf t d. cbn [wf_units] in Hwf.
    apply andb_true_iff in Hwf as [Hu Hrest].
    cbn [render_units]. rewrite <- !app_assoc.
    rewrite (IHu Hu), scan_quantifier, (IHrest Hrest). cbn [fst snd].
    rewrite !length_app. f_equal. lia.
Qed.

(** From depth 1 the scan of a group stops right after its closing
    parenthesis. *)
Lemma scan_group_body (body : units) (t : str) :
  wf_units body = true ->
  scan false (render_units body ++ rparen :: t) 1
  = (length (render_units body) + 1, 0).
Proof.
  intros Hwf. rewrite (proj2 scan_render body Hwf). cbn [scan].
  change (char_eqb rparen backslash) with false.
  change (char_eqb rparen lparen) with false.
  change (char_eqb rparen rparen) with true. cbn [negb andb].
  destruct t; reflexivity.
Qed.

Lemma odd_run_other (pre : str) (c : char) :
  char_eqb c backslash = false -> odd_run (pre ++ [c]) = false.
Proof. intros H. now rewrite odd_run_snoc, H. Qed.

Lemma odd_run_escape (pre : str) (c : char) :
  odd_run pre = false -> odd_run (pre ++ [backslash; c]) = false.
Proof.
  intros H. change [backslash; c] with ([backslash] ++ [c]).
  rewrite app_assoc, !odd_run_snoc, H.
  change (char_eqb backslash backslash) with true.
  now destruct (char_eqb c backslash).
Qed.

Lemma odd_run_render_unit (u : regex_unit) (pre : str) :
  wf_unit u = true -> odd_run pre = false -> odd_run (pre ++ render_unit u) = false.
Proof.
  intros Hwf Hpre. destruct u as [c|c|body]; cbn [render_unit].
  - apply unit_char_spec in Hwf as (Hb & _). now apply odd_run_other.
  - now apply odd_run_escape.
  - rewrite app_comm_cons, app_assoc. now apply odd_run_other.
Qed.

(** *** Reading one unit *)

Lemma slice_middle (pre mid suf : str) :
  slice (pre ++ mid ++ suf) (length pre) (length pre + length mid) = mid.
Proof.
  unfold slice. rewrite skipn_app, skipn_all, Nat.sub_diag. cbn [skipn app].
  replace (length pre + length mid - length pre) with (length mid) by lia.
  rewrite firstn_app, firstn_all, Nat.sub_diag. cbn [firstn]. apply app_nil_r.
Qed.

Lemma read_unit_escape (recur : str -> result str) (pre : str) (c : char) (suf : str) :
  Simp.read_unit recur (pre ++ backslash :: c :: suf) (length pre)
  = Ok ([backslash; c], length pre + 2).
Proof.
  unfold Simp.read_unit. rewrite get_app. cbn [bind].
  change (char_eqb backslash backslash) with true.
  replace (length pre + 1 <? length (pre ++ backslash :: c :: suf)) with true
    by (symmetry; apply Nat.ltb_lt; rewrite length_app; simpl; lia).
  cbn [andb]. now rewrite slice_app2.
Qed.

Lemma read_unit_literal (recur : str -> result str) (pre : str) (c : char) (suf : str) :
  char_eqb c backslash = false -> char_eqb c lparen = false ->
  Simp.read_unit recur (pre ++ c :: suf) (length pre) = Ok ([c], length pre + 1).
Proof.
  intros Hb Hl. unfold Simp.read_unit. rewrite get_app. cbn [bind].
  rewrite Hb, Hl. cbn [andb]. now rewrite and_not_escaped_spec.
Qed.

Lemma read_unit_group (recur : str -> result str) (pre : str) (body : units) (suf : str) :
  wf_units body = true -> odd_run pre = false ->
  Simp.read_unit recur (pre ++ render_unit (Grp body) ++ suf) (length pre)
  = (r <- recur (render_units body) ;;
     Ok (py "(" ++ r ++ py ")", length pre + length (render_unit (Grp body)))).
Proof.
  intros Hwf Hpre. unfold Simp.read_unit. cbn [render_unit app].
  rewrite get_app. cbn [bind].
  change (char_eqb lparen backslash) with false.
  change (char_eqb lparen lparen) with true. cbn [andb].
  rewrite and_not_escaped_spec, Hpre. cbn [bind negb andb].
  rewrite <- app_assoc. cbn [app].
  set (rest := render_units body ++ rparen :: suf).
  assert (Hscan : Simp.scan_group (length (pre ++ lparen :: rest))
                    (pre ++ lparen :: rest) (length pre + 1) 1
                  = Ok (length pre + 1 + (length (render_units body) + 1), 0)).
  { rewrite snoc_app, <- (length_snoc pre lparen).
    rewrite scan_group_spec by (rewrite length_app; lia).
    rewrite (odd_run_other pre lparen eq_refl). unfold rest.
    now rewrite scan_group_body. }
  rewrite Hscan. cbn [bind fst].
  replace (slice (pre ++ lparen :: rest) (length pre + 1)
             (length pre + 1 + (length (render_units body) + 1) - 1))
    with (render_units body).
  - destruct (recur (render_units body)); cbn [bind]; try reflexivity.
    do 2 f_equal. cbn [length]. rewrite length_app. cbn [length]. lia.
  - unfold rest. rewrite snoc_app, <- (length_snoc pre lparen).
    replace (length (pre ++ [lparen]) + (length (render_units body) + 1) - 1)
      with (length (pre ++ [lparen]) + length (render_units body)) by lia.
    now rewrite slice_middle.
Qed.

(** *** The quantifier test *)

Lemma quantifier_follows_end (pre : str) :
  Simp.quantifier_follows (pre ++ []) (length pre) = Ok false.
Proof. unfold Simp.quantifier_follows. now rewrite ltb_length_nil. Qed.

Lemma quantifier_follows_char (pre : str) (c : char) (suf : str) :
  odd_run pre = false ->
  Simp.quantifier_follows (pre ++ c :: suf) (length pre)
  = Ok (char_eqb c plus || char_eqb c question).
Proof.
  intros Hpre. unfold Simp.quantifier_follows.
  rewrite ltb_length_app, is_escaped_spec, Hpre. cbn [bind negb].
  rewrite get_app. cbn [bind]. f_equal.
  unfold str_in. change (py "+") with [plus]. change (py "?") with [question].
  cbn [existsb str_eqb]. now rewrite !andb_true_r, orb_false_r.
Qed.

(** A sequence of well-formed units does not start with a quantifier. *)
Lemma quantifier_follows_units (pre : str) (e : units) :
  wf_units e = true -> odd_run pre = false ->
  Simp.quantifier_follows (pre ++ render_units e) (length pre) = Ok false.
Proof.
  intros Hwf Hpre. destruct e as [|u q rest]; [apply quantifier_follows_end|].
  cbn [wf_units] in Hwf. apply andb_true_iff in Hwf as [Hu _].
  cbn [render_units]. destruct u as [c|c|body]; cbn [render_unit app].
  - apply unit_char_spec in Hu as (_ & _ & _ & Hp & Hq).
    now rewrite quantifier_follows_char, Hp, Hq.
  - now rewrite quantifier_follows_char.
  - now rewrite quantifier_follows_char.
Qed.

(** *** The loop on a sequence of units *)

Lemma length_render_unit (u : regex_unit) : 1 <= length (render_unit u).
Proof. destruct u; cbn [render_unit length]; lia. Qed.

Lemma read_unit_wf (recur : str -> result str) (pre : str) (u : regex_unit) (suf : str) :
  wf_unit u = true -> odd_run pre = false ->
  (forall body, u = Grp body -> recur (render_units body) = Ok (expanded_units body)) ->
  Simp.read_unit recur (pre ++ render_unit u ++ suf) (length pre)
  = Ok (expanded_unit u, length pre + length (render_unit u)).
Proof.
  intros Hwf Hpre Hrec. destruct u as [c|c|body].
  - apply unit_char_spec in Hwf as (Hb & Hl & _).
    now apply read_unit_literal.
  - apply read_unit_escape.
  - rewrite read_unit_group by assumption.
    now rewrite (Hrec body eq_refl).
Qed.

Lemma expand_loop_units (fuel : nat) :
  forall (e : units) (pre out : str),
    wf_units e = true -> odd_run pre = false ->
    length (render_units e) <= fuel ->
    Simp.expand_loop fuel (pre ++ render_units e) (length pre) out
    = Ok (out ++ expanded_units e).
Proof.
  induction fuel as [|fuel IH]; intros [|u q rest] pre out Hwf Hpre Hfuel;
    cbn [render_units expanded_units] in *.
  - cbn [Simp.expand_loop]. now rewrite ltb_length_nil, app_nil_r.
  - pose proof (length_render_unit u). rewrite length_app in Hfuel. lia.
  - cbn [Simp.expand_loop]. now rewrite ltb_length_nil, app_nil_r.
  - cbn [wf_units] in Hwf. apply andb_true_iff in Hwf as [Hu Hrest].
    pose proof (length_render_unit u) as Hlen.
    rewrite !length_app in Hfuel.
    cbn [Simp.expand_loop].
    replace (length pre <? length (pre ++ render_unit u ++ render_quantifier q
                                     ++ render_units rest)) with true
      by (symmetry; apply Nat.ltb_lt; rewrite !length_app; lia).
    rewrite read_unit_wf; try assumption.
    2:{ intros body ->. cbn [wf_unit] in Hu.
        apply (IH body [] []); [assumption | reflexivity|].
        cbn [render_unit length] in Hfuel. rewrite length_app in Hfuel.
        cbn [length] in Hfuel. lia. }
    cbn [bind].
    pose proof (odd_run_render_unit u pre Hu Hpre) as Hpre1.
    replace (pre ++ render_unit u ++ render_quantifier q ++ render_units rest)
      with ((pre ++ render_unit u) ++ render_quantifier q ++ render_units rest)
      by (now rewrite <- app_assoc).
    rewrite <- length_app.
    set (pre1 := pre ++ render_unit u) in *.
    destruct q as [[|]|]; cbn [render_quantifier quantified app].
    + rewrite quantifier_follows_char by assumption.
      change (char_eqb plus plus) with true. cbn [orb bind].
      rewrite get_app. cbn [bind]. change (str_eqb [plus] (py "+")) with true.
      cbv iota. rewrite snoc_app, <- (length_snoc pre1 plus).
      rewrite IH; [|assumption|now apply odd_run_other|cbn [length] in Hfuel; lia].
      now rewrite <- !app_assoc.
    + rewrite quantifier_follows_char by assumption.
      change (char_eqb question plus) with false.
      change (char_eqb question question) with true. cbn [orb bind].
      rewrite get_app. cbn [bind]. change (str_eqb [question] (py "+")) with false.
      cbv iota. rewrite snoc_app, <- (length_snoc pre1 question).
      rewrite IH; [|assumption|now apply odd_run_other|cbn [length] in Hfuel; lia].
      now rewrite <- !app_assoc.
    + rewrite quantifier_follows_units by assumption. cbn [bind].
      rewrite IH; [|assumption|assumption|cbn [length] in Hfuel; lia].
      now rewrite <- !app_assoc.
Qed.

(** On a well-formed sequence of units the expander returns the expansion
    of the docstring. *)
Lemma expand_plus_question_spec (e : units) :
  wf_units e = true ->
  Simp.expand_plus_question (render_units e) = Ok (expanded_units e).
Proof.
  intros Hwf. unfold Simp.expand_plus_question.
  apply (@expand_loop_units (length (render_units e)) e [] [] Hwf eq_refl).
  lia.
Qed.

(** *** The expander returns on every string *)

Lemma index_split {A : Type} (l : list A) (i : nat) :
  i < length l -> exists pre c suf, l = pre ++ c :: suf /\ length pre = i.
Proof.
  intros H. destruct (nth_error l i) as [c|] eqn:E.
  - apply nth_error_split in E as (pre & suf & -> & <-). now exists pre, c, suf.
  - apply nth_error_None in E. lia.
Qed.

Lemma scan_le (suf : str) : forall esc depth, fst (scan esc suf depth) <= length suf.
Proof.
  induction suf as [|c suf IH]; intros esc [|d]; cbn [scan fst length]; try lia.
  apply le_n_S, IH.
Qed.

Lemma length_slice (s : str) (a b : nat) : length (slice s a b) <= b - a.
Proof. unfold slice. rewrite length_firstn. lia. Qed.

Lemma read_unit_total (recur : str -> result str) (pre : str) (c : char) (suf : str) :
  (forall inner, length inner <= length suf -> exists r, recur inner = Ok r) ->
  exists token i1,
    Simp.read_unit recur (pre ++ c :: suf) (length pre) = Ok (token, i1)
    /\ length pre < i1 <= length (pre ++ c :: suf).
Proof.
  intros Hrec. unfold Simp.read_unit. rewrite get_app. cbn [bind].
  destruct (char_eqb c backslash && (length pre + 1 <? length (pre ++ c :: suf)))
    eqn:Eesc.
  - apply andb_true_iff in Eesc as [_ Hlt]. apply Nat.ltb_lt in Hlt.
    eexists _, _. split; [reflexivity | lia].
  - rewrite and_not_escaped_spec. cbn [bind].
    destruct (char_eqb c lparen && negb (odd_run pre)).
    + rewrite snoc_app, <- (length_snoc pre c).
      rewrite scan_group_spec
        by (rewrite length_app; lia).
      cbn [bind fst].
      set (k := fst (scan (odd_run (pre ++ [c])) suf 1)).
      assert (Hk : k <= length suf) by apply scan_le.
      destruct (Hrec (slice ((pre ++ [c]) ++ suf) (length (pre ++ [c]))
                        (length (pre ++ [c]) + k - 1))) as [r Hr].
      { etransitivity; [apply length_slice | lia]. }
      rewrite Hr. cbn [bind]. eexists _, _. split; [reflexivity|].
      rewrite !length_app. cbn [length]. lia.
    + eexists _, _. split; [reflexivity|]. rewrite length_app. cbn [length]. lia.
Qed.

Lemma quantifier_follows_total (expr : str) (i : nat) :
  exists b, Simp.quantifier_follows expr i = Ok b
            /\ (b = true -> i < length expr /\ exists c, get expr i = Ok c).
Proof.
  unfold Simp.quantifier_follows. destruct (i <? length expr) eqn:Hlt.
  - apply Nat.ltb_lt in Hlt.
    destruct (index_split expr Hlt) as (pre & c & suf & -> & <-).
    rewrite is_escaped_spec. cbn [bind]. destruct (negb (odd_run pre)).
    + rewrite get_app. cbn [bind]. eexists. split; [reflexivity|].
      intros _. split; [assumption | now exists c].
    + exists false. split; [reflexivity | discriminate].
  - exists false. split; [reflexivity | discriminate].
Qed.

Lemma expand_loop_total (fuel : nat) :
  forall (expr : str) (i : nat) (out : str),
    i <= length expr -> length expr - i <= fuel ->
    exists r, Simp.expand_loop fuel expr i out = Ok r.
Proof.
  induction fuel as [|fuel IH]; intros expr i out Hi Hfuel.
  - exists out. cbn [Simp.expand_loop].
    replace (i <? length expr) with false
      by (symmetry; apply Nat.ltb_ge; lia).
    reflexivity.
  - cbn [Simp.expand_loop]. destruct (i <? length expr) eqn:Hlt;
      [|now exists out].
    apply Nat.ltb_lt in Hlt.
    destruct (index_split expr Hlt) as (pre & c & suf & -> & <-).
    rewrite length_app in Hfuel. cbn [length] in Hfuel.
    destruct (@read_unit_total (fun inner => Simp.expand_loop fuel inner 0 [])
                pre c suf) as (token & i1 & -> & Hi1).
    { intros inner Hinner. apply IH; lia. }
    cbn [bind].
    destruct (quantifier_follows_total (pre ++ c :: suf) i1) as (b & -> & Hb).
    cbn [bind]. rewrite length_app in Hi1. cbn [length] in Hi1.
    destruct b.
    + destruct (Hb eq_refl) as (Hlt1 & c1 & ->). cbn [bind].
      rewrite length_app in Hlt1. cbn [length] in Hlt1.
      destruct (str_eqb [c1] (py "+")); apply IH;
        rewrite length_app; cbn [length]; lia.
    + apply IH; rewrite length_app; cbn [length]; lia.
Qed.

(** [expand_plus_question] returns a string on every string: it neither
    raises nor runs out of fuel. *)
Lemma expand_plus_question_total (expr : str) :
  exists r, Simp.expand_plus_question expr = Ok r.
Proof. unfold Simp.expand_plus_question. apply expand_loop_total; lia. Qed.

(** *** The tokens of the expansion *)













(** * Further properties *)

(** ** The tokenizer and the inserter, continued *)

Lemma concat_tokens_of (n : nat) :
  forall expr, length expr <= n -> concat (tokens_of expr) = expr.
Proof.
  induction n as [n IH] using lt_wf_ind. intros [|c expr] Hn; [reflexivity|].
  cbn [tokens_of]. destruct (char_eqb c backslash).
  - destruct expr as [|d expr]; [reflexivity|].
    cbn [concat app]. do 2 f_equal. apply (IH (length expr)); simpl in *; lia.
  - cbn [concat app]. f_equal. apply (IH (length expr)); simpl in *; lia.
Qed.

Lemma tokens_of_shape (n : nat) :
  forall expr, length expr <= n ->
    Forall (fun tok => exists c, tok = [c] \/ exists d, tok = [backslash; d])
      (tokens_of expr).
Proof.
  induction n as [n IH] using lt_wf_ind. intros [|c expr] Hn; [constructor|].
  cbn [tokens_of]. destruct (char_eqb c backslash) eqn:E.
  - apply char_eqb_eq in E. subst c. destruct expr as [|d expr].
    + repeat constructor. exists backslash. now left.
    + constructor; [exists backslash; right; now exists d|].
      apply (IH (length expr)); simpl in *; lia.
  - constructor; [exists c; now left|].
    apply (IH (length expr)); simpl in *; lia.
Qed.

(** X1. The tokens lose nothing: joined, they are the string again; and
    each is one character, or a backslash with the character after it. *)
Theorem tokenize_join (expr : str) :
  exists tokens,
    tokenize expr = Ok tokens
    /\ concat tokens = expr
    /\ Forall (fun tok => exists c, tok = [c] \/ exists d, tok = [backslash; d])
         tokens.
Proof.
  exists (tokens_of expr). split; [apply tokenize_spec|]. split.
  - now apply (@concat_tokens_of (length expr)).
  - now apply (@tokens_of_shape (length expr)).
Qed.

Lemma filter_dots_from (todo : list str) :
  forall prev, forallb not_dot todo = true ->
    filter not_dot (dots_from prev todo) = todo.
Proof.
  induction todo as [|tok todo IH]; intros prev H; [reflexivity|].
  cbn [forallb] in H. apply andb_true_iff in H as [Htok Htodo].
  cbn [dots_from]. rewrite filter_app. cbn [filter]. rewrite Htok, (IH tok Htodo).
  destruct (needs_dot prev tok); reflexivity.
Qed.

Lemma length_dots_from (todo : list str) :
  forall prev, length todo <= length (dots_from prev todo) <= 2 * length todo.
Proof.
  induction todo as [|tok todo IH]; intros prev; cbn [dots_from length]; [lia|].
  specialize (IH tok). rewrite length_app. cbn [length].
  destruct (needs_dot prev tok); cbn [length]; lia.
Qed.

(** X2. The inserter only adds ['.'] tokens.  When no token of the string
    is ['.'], taking the ['.'] tokens out of what it returns gives the
    tokens of the string back; the first token stays first, and [n] tokens
    become at most [2n - 1]. *)
Theorem insert_concatenation_only_adds_dots (expr : str) (tokens : list str) :
  tokenize expr = Ok tokens ->
  forallb not_dot tokens = true ->
  exists result_,
    insert_concatenation expr = Ok result_
    /\ filter not_dot result_ = tokens
    /\ hd_error result_ = hd_error tokens
    /\ length tokens <= length result_ <= 2 * length tokens - 1.
Proof.
  rewrite tokenize_spec. intros E Hdots. injection E as <-.
  exists (with_dots (tokens_of expr)). split; [apply insert_concatenation_spec|].
  destruct (tokens_of expr) as [|tok todo]; [repeat split; simpl; lia|].
  cbn [forallb] in Hdots. apply andb_true_iff in Hdots as [Htok Htodo].
  cbn [with_dots filter hd_error length]. rewrite Htok, (filter_dots_from todo tok Htodo).
  repeat split; pose proof (length_dots_from todo tok); lia.
Qed.

Lemma insert_concatenation_only_adds_dots_witness :
  exists result_,
    insert_concatenation (py "a(b|c)*d") = Ok result_
    /\ filter not_dot result_
       = [py "a"; py "("; py "b"; py "|"; py "c"; py ")"; py "*"; py "d"]
    /\ hd_error result_ = Some (py "a")
    /\ 8 <= length result_ <= 15.
Proof.
  apply (@insert_concatenation_only_adds_dots (py "a(b|c)*d")
           [py "a"; py "("; py "b"; py "|"; py "c"; py ")"; py "*"; py "d"]);
    reflexivity.
Defined.

(** ** The tree builder, continued *)

Lemma arity_cases (tok : str) :
  (arity tok = 1 /\ str_in tok [py "*"; py "+"; py "?"] = true)
  \/ (arity tok = 2 /\ str_in tok [py "*"; py "+"; py "?"] = false
      /\ str_in tok [py "."; py "|"] = true)
  \/ (arity tok = 0 /\ str_in tok [py "*"; py "+"; py "?"] = false
      /\ str_in tok [py "."; py "|"] = false).
Proof.
  unfold arity. destruct (str_in tok [py "*"; py "+"; py "?"]); [now left|].
  destruct (str_in tok [py "."; py "|"]); [right; left | right; right]; auto.
Qed.

Lemma build_step_leaf (stk : list RegexNode) (tok : str) :
  arity tok = 0 -> build_step stk tok = Ok (leaf tok :: stk).
Proof.
  intros H. unfold build_step.
  destruct (arity_cases tok) as [[E _]|[[E _]|(_ & -> & ->)]]; try congruence.
  reflexivity.
Qed.

Lemma build_step_unary (stk : list RegexNode) (tok : str) (child : RegexNode) :
  arity tok = 1 ->
  build_step (child :: stk) tok = Ok (mkRegexNode tok (Some child) None :: stk).
Proof.
  intros H. unfold build_step.
  destruct (arity_cases tok) as [[_ ->]|[[E _]|[E _]]]; try congruence.
  reflexivity.
Qed.

Lemma build_step_binary (stk : list RegexNode) (tok : str) (l r : RegexNode) :
  arity tok = 2 ->
  build_step (r :: l :: stk) tok = Ok (mkRegexNode tok (Some l) (Some r) :: stk).
Proof.
  intros H. unfold build_step.
  destruct (arity_cases tok) as [[E _]|[(_ & -> & ->)|[E _]]]; try congruence.
  reflexivity.
Qed.

Lemma build_loop_to_postfix (t : RegexNode) :
  wf_node t = true ->
  forall stk rest, build_loop stk (to_postfix t ++ rest) = build_loop (t :: stk) rest.
Proof.
  induction t as [v l r IHl IHr] using RegexNode_induction.
  intros Hwf stk rest. cbn [wf_node to_postfix] in *.
  destruct l as [a|], r as [b|]; cbn [on_child] in *; try discriminate.
  - apply andb_true_iff in Hwf as [Hwf Hb].
    apply andb_true_iff in Hwf as [Hv Ha]. apply Nat.eqb_eq in Hv.
    rewrite <- !app_assoc, (IHl Ha), (IHr Hb). cbn [app build_loop].
    now rewrite build_step_binary.
  - apply andb_true_iff in Hwf as [Hv Ha]. apply Nat.eqb_eq in Hv.
    rewrite <- !app_assoc, (IHl Ha). cbn [app build_loop].
    now rewrite build_step_unary.
  - apply Nat.eqb_eq in Hwf. cbn [app build_loop].
    now rewrite build_step_leaf.
Qed.

(** X3. The builder inverts the postorder traversal: from the postorder
    tokens of a tree in which every node has the children its arity asks
    for, [build_syntax_tree] returns that very tree. *)
Theorem build_syntax_tree_to_postfix (t : RegexNode) :
  wf_node t = true -> build_syntax_tree (to_postfix t) = Ok t.
Proof.
  intros Hwf. unfold build_syntax_tree.
  rewrite <- (app_nil_r (to_postfix t)), (build_loop_to_postfix t Hwf).
  reflexivity.
Qed.

Lemma build_syntax_tree_to_postfix_witness :
  build_syntax_tree [py "a"; py "b"; py "*"; py "|"; py "c"; py "."]
  = Ok (mkRegexNode (py ".")
          (Some (mkRegexNode (py "|") (Some (leaf (py "a")))
                   (Some (mkRegexNode (py "*") (Some (leaf (py "b"))) None))))
          (Some (leaf (py "c")))).
Proof.
  apply (build_syntax_tree_to_postfix
           (mkRegexNode (py ".")
              (Some (mkRegexNode (py "|") (Some (leaf (py "a")))
                       (Some (mkRegexNode (py "*") (Some (leaf (py "b"))) None))))
              (Some (leaf (py "c"))))).
  reflexivity.
Defined.

Lemma stack_tokens_cons (n : RegexNode) (stk : list RegexNode) :
  stack_tokens (n :: stk) = stack_tokens stk ++ to_postfix n.
Proof.
  unfold stack_tokens. cbn [rev]. rewrite map_app, concat_app. cbn [map concat].
  now rewrite app_nil_r.
Qed.

Lemma build_step_tokens (stk stk' : list RegexNode) (tok : str) :
  build_step stk tok = Ok stk' -> stack_tokens stk' = stack_tokens stk ++ [tok].
Proof.
  destruct (arity_cases tok) as [[E _]|[[E _]|[E _]]].
  - destruct stk as [|c stk]; [now rewrite build_step_underflow by (simpl; lia)|].
    rewrite build_step_unary by assumption. intros H. injection H as <-.
    rewrite !stack_tokens_cons. cbn [to_postfix app]. now rewrite <- app_assoc.
  - destruct stk as [|r [|l stk]];
      try now rewrite build_step_underflow by (simpl; lia).
    rewrite build_step_binary by assumption. intros H. injection H as <-.
    rewrite !stack_tokens_cons. cbn [to_postfix]. now rewrite <- !app_assoc.
  - rewrite build_step_leaf by assumption. intros H. injection H as <-.
    now rewrite stack_tokens_cons.
Qed.

Lemma build_loop_tokens (postfix_tokens : list str) :
  forall stk stk', build_loop stk postfix_tokens = Ok stk' ->
    stack_tokens stk' = stack_tokens stk ++ postfix_tokens.
Proof.
  induction postfix_tokens as [|tok rest IH]; intros stk stk'; cbn [build_loop].
  - intros H. injection H as <-. now rewrite app_nil_r.
  - destruct (build_step stk tok) as [stk1| |] eqn:E; cbn [bind]; try discriminate.
    intros H. rewrite (IH _ _ H), (build_step_tokens _ _ E).
    now rewrite <- app_assoc.
Qed.

(** X4. The builder's loop loses no token and keeps their order: when it
    ends without underflow, the postorder tokens of the trees left on the
    stack, bottom first, are the postfix sequence it has read.  So the tree
    that [build_syntax_tree] returns spells the whole input only when it is
    the one node left. *)
Theorem build_loop_keeps_tokens (postfix_tokens : list str) (stk : list RegexNode) :
  build_loop [] postfix_tokens = Ok stk ->
  concat (map to_postfix (rev stk)) = postfix_tokens
  /\ (forall t, stk = [t] ->
        build_syntax_tree postfix_tokens = Ok t /\ to_postfix t = postfix_tokens).
Proof.
  intros H. pose proof (build_loop_tokens _ _ H) as E.
  unfold stack_tokens in E. cbn [rev map concat app] in E. split; [assumption|].
  intros t ->. split.
  - unfold build_syntax_tree. now rewrite H.
  - cbn [rev app map concat] in E. now rewrite app_nil_r in E.
Qed.

Lemma build_loop_keeps_tokens_witness :
  concat (map to_postfix
            (rev [leaf (py "c");
                  mkRegexNode (py ".") (Some (leaf (py "a"))) (Some (leaf (py "b")))]))
  = [py "a"; py "b"; py "."; py "c"].
Proof.
  apply (@build_loop_keeps_tokens [py "a"; py "b"; py "."; py "c"]
           [leaf (py "c");
            mkRegexNode (py ".") (Some (leaf (py "a"))) (Some (leaf (py "b")))]).
  reflexivity.
Defined.

Lemma build_step_height (stk : list RegexNode) (tok : str) :
  arity tok <= length stk ->
  exists stk', build_step stk tok = Ok stk'
               /\ length stk' = length stk + 1 - arity tok.
Proof.
  intros H. destruct (arity_cases tok) as [[E _]|[[E _]|[E _]]]; rewrite E in *.
  - destruct stk as [|c stk]; [simpl in H; lia|].
    rewrite build_step_unary by assumption. eexists. split; [reflexivity|].
    simpl. lia.
  - destruct stk as [|r [|l stk]]; try (simpl in H; lia).
    rewrite build_step_binary by assumption. eexists. split; [reflexivity|].
    simpl. lia.
  - rewrite build_step_leaf by assumption. eexists. split; [reflexivity|].
    simpl. lia.
Qed.

Lemma build_loop_height (postfix_tokens : list str) :
  forall stk,
    match stack_height (length stk) postfix_tokens with
    | Some h => exists stk', build_loop stk postfix_tokens = Ok stk' /\ length stk' = h
    | None => build_loop stk postfix_tokens = Raise IndexError
    end.
Proof.
  induction postfix_tokens as [|tok rest IH]; intros stk;
    cbn [stack_height build_loop].
  - now exists stk.
  - destruct (arity tok <=? length stk) eqn:E.
    + apply Nat.leb_le in E. destruct (build_step_height stk tok E) as (stk1 & -> & <-).
      cbn [bind]. apply IH.
    + apply Nat.leb_gt in E. now rewrite build_step_underflow.
Qed.

(** X5. Whether [build_syntax_tree] returns a tree is a matter of counting
    alone: it does when no operator of the sequence finds fewer nodes on
    the stack than its arity and at least one node is left at the end;
    otherwise it raises [IndexError]. *)
Theorem build_syntax_tree_by_height (postfix_tokens : list str) :
  match stack_height 0 postfix_tokens with
  | Some (S _) => exists t, build_syntax_tree postfix_tokens = Ok t
  | _ => build_syntax_tree postfix_tokens = Raise IndexError
  end.
Proof.
  pose proof (build_loop_height postfix_tokens []) as H. cbn [length] in H.
  unfold build_syntax_tree.
  destruct (stack_height 0 postfix_tokens) as [[|h]|].
  - destruct H as (stk & -> & Hlen). now destruct stk.
  - destruct H as (stk & -> & Hlen). destruct stk as [|t stk]; [discriminate|].
    now exists t.
  - now rewrite H.
Qed.

(** ** The converter, continued *)

Section Core.

Variable is_operand : str -> bool.

Lemma pop_for_rparen_core (stk : list str) :
  forall out ps,
    sy_core (pop_for_rparen out stk ps) = core_pop_for_rparen out stk.
Proof.
  induction stk as [|op stk IH]; intros out ps;
    cbn [pop_for_rparen core_pop_for_rparen]; [reflexivity|].
  destruct (negb (str_eqb op (py "("))); [apply IH | reflexivity].
Qed.

Lemma pop_ops_core (token : str) (stk : list str) :
  forall out ps, sy_core (pop_ops token out stk ps) = core_pop_ops token out stk.
Proof.
  induction stk as [|top stk IH]; intros out ps; cbn [pop_ops core_pop_ops];
    [reflexivity|].
  destruct (precedence token <=? precedence top); [|reflexivity].
  destruct (str_eqb top (py "(")); [reflexivity | apply IH].
Qed.

Lemma sy_step_core (st : sy_state) (token : str) :
  sy_core (sy_step is_operand st token) = core_step is_operand (sy_core st) token.
Proof.
  destruct st as [out stk ps]. unfold sy_step, core_step, sy_core at 2.
  cbn [output stack].
  destruct (is_operand token); [reflexivity|].
  destruct (str_eqb token (py "(")); [reflexivity|].
  destruct (str_eqb token (py ")")).
  - pose proof (pop_for_rparen_core stk out ps) as H.
    destruct (pop_for_rparen out stk ps) as [out1 stk1 ps1].
    unfold sy_core in H. cbn [output stack] in H. rewrite <- H.
    destruct stk1 as [|top stk2]; [reflexivity|].
    destruct (str_eqb top (py "(")); reflexivity.
  - destruct (str_in token [py "|"; py "."; py "*"; py "+"; py "?"]);
      [|reflexivity].
    pose proof (pop_ops_core token stk out ps) as H.
    destruct (pop_ops token out stk ps) as [out1 stk1 ps1].
    unfold sy_core in H. cbn [output stack] in H. now rewrite <- H.
Qed.

Lemma sy_fold_core (tokens : list str) :
  forall st,
    sy_core (fold_left (sy_step is_operand) tokens st)
    = fold_left (core_step is_operand) tokens (sy_core st).
Proof.
  induction tokens as [|t ts IH]; intros st; cbn [fold_left]; [reflexivity|].
  now rewrite IH, sy_step_core.
Qed.

(** The postfix output, from the converter without its trace. *)
Lemma shunting_yard_core (tokens : list str) :
  fst (shunting_yard_with is_operand tokens)
  = fst (fold_left (core_step is_operand) tokens ([], []))
    ++ snd (fold_left (core_step is_operand) tokens ([], [])).
Proof.
  rewrite shunting_yard_output. unfold sy_loop.
  pose proof (sy_fold_core tokens (mk_sy [] [] [])) as H.
  unfold sy_core in H. cbn [output stack] in H. now rewrite <- H.
Qed.

(** Both inner loops move a run of tokens, none of them ['('], from the top
    of the stack to the end of the output. *)
Lemma core_pop_for_rparen_moves (stk : list str) :
  forall out, exists moved,
    fst (core_pop_for_rparen out stk) = out ++ moved
    /\ stk = moved ++ snd (core_pop_for_rparen out stk)
    /\ forallb (fun t => negb (str_eqb t (py "("))) moved = true.
Proof.
  induction stk as [|op stk IH]; intros out; cbn [core_pop_for_rparen].
  - exists []. now rewrite app_nil_r.
  - destruct (negb (str_eqb op (py "("))) eqn:E.
    + destruct (IH (out ++ [op])) as (moved & H1 & H2 & H3).
      exists (op :: moved). rewrite H1, <- app_assoc. cbn [app forallb].
      rewrite E, H3. repeat split. now rewrite <- H2.
    + exists []. now rewrite app_nil_r.
Qed.

Lemma core_pop_ops_moves (token : str) (stk : list str) :
  forall out, exists moved,
    fst (core_pop_ops token out stk) = out ++ moved
    /\ stk = moved ++ snd (core_pop_ops token out stk)
    /\ forallb (fun t => negb (str_eqb t (py "("))) moved = true.
Proof.
  induction stk as [|top stk IH]; intros out; cbn [core_pop_ops].
  - exists []. now rewrite app_nil_r.
  - destruct (precedence token <=? precedence top);
      [|exists []; now rewrite app_nil_r].
    destruct (str_eqb top (py "(")) eqn:E; [exists []; now rewrite app_nil_r|].
    destruct (IH (out ++ [top])) as (moved & H1 & H2 & H3).
    exists (top :: moved). rewrite H1, <- app_assoc. cbn [app forallb].
    rewrite E, H3. repeat split. now rewrite <- H2.
Qed.

(** What one token does to the output and the stack. *)
Lemma core_step_cases (out stk : list str) (token : str) :
  let out' := fst (core_step is_operand (out, stk) token) in
  let stk' := snd (core_step is_operand (out, stk) token) in
  (is_operand token = true /\ out' = out ++ [token] /\ stk' = stk)
  \/ (is_operand token = false /\ token = py "(" /\ out' = out /\ stk' = token :: stk)
  \/ (is_operand token = false /\ token = py ")"
      /\ exists moved, out' = out ++ moved
           /\ (stk = moved ++ stk' \/ stk = moved ++ py "(" :: stk')
           /\ forallb (fun t => negb (str_eqb t (py "("))) moved = true)
  \/ (is_operand token = false /\ is_operator token = true
      /\ token <> py "(" /\ token <> py ")"
      /\ exists moved rest, out' = out ++ moved /\ stk = moved ++ rest
           /\ stk' = token :: rest
           /\ forallb (fun t => negb (str_eqb t (py "("))) moved = true)
  \/ (recognised is_operand token = false /\ out' = out /\ stk' = stk).
Proof.
  unfold core_step, recognised, is_operator.
  destruct (is_operand token) eqn:Eop; [left; auto|]. right.
  destruct (str_eqb token (py "(")) eqn:El.
  { left. apply str_eqb_eq in El. auto. }
  right. destruct (str_eqb token (py ")")) eqn:Er.
  - left. apply str_eqb_eq in Er. split; [reflexivity|]. split; [assumption|].
    destruct (core_pop_for_rparen_moves stk out) as (moved & H1 & H2 & H3).
    destruct (core_pop_for_rparen out stk) as [out1 stk1]. cbn [fst snd] in *.
    exists moved. destruct stk1 as [|top stk2]; cbn [fst snd]; auto.
    destruct (str_eqb top (py "(")) eqn:Et; cbn [fst snd]; auto.
    apply str_eqb_eq in Et. subst top. auto.
  - right. destruct (str_in token [py "|"; py "."; py "*"; py "+"; py "?"]) eqn:Eo.
    + left. repeat split; try reflexivity.
      * intros ->. discriminate.
      * intros ->. discriminate.
      * destruct (core_pop_ops_moves token stk out) as (moved & H1 & H2 & H3).
        destruct (core_pop_ops token out stk) as [out1 stk1]. cbn [fst snd] in *.
        now exists moved, stk1.
    + right. auto.
Qed.

Lemma filter_moved (moved rest : list str) :
  forallb (fun t => negb (is_operand t)) (moved ++ rest) = true ->
  filter is_operand moved = []
  /\ forallb (fun t => negb (is_operand t)) rest = true.
Proof.
  rewrite forallb_app, andb_true_iff. intros [Hm Hr]. split; [|assumption].
  induction moved as [|t moved IH]; [reflexivity|].
  cbn [forallb filter] in *. apply andb_true_iff in Hm as [Ht Hm].
  apply negb_true_iff in Ht. rewrite Ht. now apply IH.
Qed.

Lemma core_step_operands (out stk : list str) (token : str) :
  forallb (fun t => negb (is_operand t)) stk = true ->
  filter is_operand (fst (core_step is_operand (out, stk) token))
  = filter is_operand out ++ filter is_operand [token]
  /\ forallb (fun t => negb (is_operand t))
       (snd (core_step is_operand (out, stk) token)) = true.
Proof.
  intros Hstk.
  destruct (core_step_cases out stk token)
    as [(Eop & -> & ->)|[(Eop & Et & -> & ->)|[(Eop & Et & moved & -> & Hs & _)|
        [(Eop & _ & _ & _ & moved & rest & -> & Hs & -> & _)|(Er & -> & ->)]]]];
    cbn [filter]; rewrite ?Eop, ?filter_app; cbn [filter forallb].
  - rewrite Eop. auto.
  - rewrite app_nil_r, Eop. auto.
  - destruct Hs as [Hs|Hs]; rewrite Hs in Hstk;
      destruct (filter_moved _ _ Hstk) as [-> H]; split; auto.
    cbn [forallb] in H. now apply andb_true_iff in H as [_ H].
  - rewrite Hs in Hstk. destruct (filter_moved _ _ Hstk) as [-> H].
    rewrite Eop. auto.
  - unfold recognised in Er. rewrite !orb_false_iff in Er.
    destruct Er as [[[-> _] _] _]. rewrite app_nil_r. auto.
Qed.

Lemma core_fold_operands (tokens : list str) :
  forall out stk,
    forallb (fun t => negb (is_operand t)) stk = true ->
    filter is_operand (fst (fold_left (core_step is_operand) tokens (out, stk)))
    = filter is_operand out ++ filter is_operand tokens
    /\ forallb (fun t => negb (is_operand t))
         (snd (fold_left (core_step is_operand) tokens (out, stk))) = true.
Proof.
  induction tokens as [|t ts IH]; intros out stk Hstk; cbn [fold_left].
  - now rewrite app_nil_r.
  - destruct (core_step_operands out stk t Hstk) as [H1 H2].
    destruct (core_step is_operand (out, stk) t) as [out1 stk1]. cbn [fst snd] in *.
    destruct (IH out1 stk1 H2) as [H3 H4]. split; [|assumption].
    rewrite H3, H1, <- app_assoc. f_equal.
    change (t :: ts) with ([t] ++ ts). now rewrite filter_app.
Qed.

(** The operands of the postfix output are the operands of the tokens, in
    the order of the tokens. *)
Lemma shunting_yard_operands (tokens : list str) :
  filter is_operand (fst (shunting_yard_with is_operand tokens))
  = filter is_operand tokens.
Proof.
  rewrite shunting_yard_core, filter_app.
  destruct (core_fold_operands tokens [] [] eq_refl) as [H1 H2].
  rewrite H1. cbn [filter app].
  destruct (filter_moved _ [] ltac:(rewrite app_nil_r; exact H2)) as [-> _].
  apply app_nil_r.
Qed.

End Core.

(** X6. The converter keeps the operands and their order: the operand
    tokens of the postfix output are the operand tokens of the input, in
    the same order, whatever the operators and parentheses between them. *)
Theorem shunting_yard_keeps_operands (tokens : list str) :
  filter Regex.is_operand (fst (Regex.shunting_yard tokens))
  = filter Regex.is_operand tokens
  /\ filter Simp.is_operand (fst (Simp.shunting_yard tokens))
     = filter Simp.is_operand tokens.
Proof. split; apply shunting_yard_operands. Qed.

Section CoreCounts.

Variable is_operand : str -> bool.
Hypothesis lparen_not_operand : is_operand (py "(") = false.
Hypothesis rparen_not_operand : is_operand (py ")") = false.

Lemma count_token_app (x : str) (a b : list str) :
  count_token x (a ++ b) = count_token x a + count_token x b.
Proof. unfold count_token. now rewrite filter_app, length_app. Qed.

Lemma count_token_cons (x t : str) (l : list str) :
  count_token x (t :: l) = count_token x [t] + count_token x l.
Proof. apply (count_token_app x [t] l). Qed.

Lemma count_token_other (x t : str) : x <> t -> count_token x [t] = 0.
Proof.
  intros H. unfold count_token. cbn [filter].
  destruct (str_eqb x t) eqn:E; [|reflexivity]. apply str_eqb_eq in E. contradiction.
Qed.

Lemma recognised_not_paren (x : str) :
  is_operand x = true \/ is_operator x = true -> x <> py "(" /\ x <> py ")".
Proof.
  intros [H|H]; split; intros ->; try congruence; discriminate.
Qed.

Lemma core_step_count (x : str) (out stk : list str) (token : str) :
  is_operand x = true \/ is_operator x = true ->
  count_token x (fst (core_step is_operand (out, stk) token))
  + count_token x (snd (core_step is_operand (out, stk) token))
  = count_token x out + count_token x stk + count_token x [token].
Proof.
  intros Hx. destruct (recognised_not_paren Hx) as [Hl Hr].
  pose proof (core_step_cases is_operand out stk token) as H. cbv zeta in H.
  destruct (core_step is_operand (out, stk) token) as [out1 stk1].
  cbn [fst snd] in *.
  destruct H
    as [(Eop & -> & ->)|[(Eop & Et & -> & ->)|[(Eop & Et & moved & -> & Hs & _)|
        [(Eop & _ & _ & _ & moved & rest & -> & -> & -> & _)|(Er & -> & ->)]]]].
  - rewrite count_token_app. lia.
  - rewrite (count_token_cons x token stk). lia.
  - subst token. rewrite (count_token_other Hr), count_token_app.
    destruct Hs as [-> | ->]; rewrite count_token_app;
      [|rewrite (count_token_cons x (py "(")), (count_token_other Hl)]; lia.
  - rewrite !count_token_app, (count_token_cons x token rest). lia.
  - assert (x <> token) as Hne.
    { intros <-. unfold recognised in Er. rewrite !orb_false_iff in Er.
      destruct Er as [[[E1 _] _] E2]. destruct Hx; congruence. }
    rewrite (count_token_other Hne). lia.
Qed.

Lemma core_fold_count (x : str) (tokens : list str) :
  is_operand x = true \/ is_operator x = true ->
  forall out stk,
    count_token x (fst (fold_left (core_step is_operand) tokens (out, stk)))
    + count_token x (snd (fold_left (core_step is_operand) tokens (out, stk)))
    = count_token x out + count_token x stk + count_token x tokens.
Proof.
  intros Hx. induction tokens as [|t ts IH]; intros out stk; cbn [fold_left].
  - cbn [fst snd]. change (count_token x []) with 0. lia.
  - pose proof (@core_step_count x out stk t Hx) as H.
    destruct (core_step is_operand (out, stk) t) as [out1 stk1]. cbn [fst snd] in H.
    rewrite IH, (count_token_cons x t ts). lia.
Qed.

(** Every operand and every operator is in the postfix output as often as
    among the tokens. *)
Lemma shunting_yard_count (x : str) (tokens : list str) :
  is_operand x = true \/ is_operator x = true ->
  count_token x (fst (shunting_yard_with is_operand tokens)) = count_token x tokens.
Proof.
  intros Hx. rewrite shunting_yard_core, count_token_app.
  now rewrite (@core_fold_count x tokens Hx [] []).
Qed.

Lemma core_step_bound (out stk : list str) (token : str) :
  ~ In (py ")") (out ++ stk) ->
  let st' := core_step is_operand (out, stk) token in
  ~ In (py ")") (fst st' ++ snd st')
  /\ length (fst st' ++ snd st') <= length (out ++ stk) + 1.
Proof.
  intros Hin. cbv zeta.
  pose proof (core_step_cases is_operand out stk token) as H. cbv zeta in H.
  destruct (core_step is_operand (out, stk) token) as [out1 stk1].
  cbn [fst snd] in *.
  destruct H
    as [(Eop & -> & ->)|[(Eop & Et & -> & ->)|[(Eop & Et & moved & -> & Hs & _)|
        [(Eop & _ & _ & Hr & moved & rest & -> & -> & -> & _)|(Er & -> & ->)]]]].
  - split; [|rewrite !length_app; cbn [length]; lia].
    intros H. apply Hin. rewrite !in_app_iff in *. cbn [In] in H.
    destruct H as [[H|[H|[]]]|H]; auto. subst token. congruence.
  - split; [|rewrite !length_app; cbn [length]; lia].
    intros H. apply Hin. rewrite !in_app_iff in *. cbn [In] in H.
    destruct H as [H|[H|H]]; auto. subst token. discriminate.
  - destruct Hs as [-> | ->];
      (split; [|rewrite !length_app; cbn [length]; lia]);
      intros H; apply Hin; rewrite !in_app_iff in *; cbn [In]; tauto.
  - split; [|rewrite !length_app; cbn [length]; lia].
    intros H. apply Hin. rewrite !in_app_iff in *. cbn [In] in H.
    destruct H as [[H|H]|[H|H]]; auto. congruence.
  - split; [assumption | lia].
Qed.

Lemma core_fold_bound (tokens : list str) :
  forall out stk,
    ~ In (py ")") (out ++ stk) ->
    let st' := fold_left (core_step is_operand) tokens (out, stk) in
    ~ In (py ")") (fst st' ++ snd st')
    /\ length (fst st' ++ snd st') <= length (out ++ stk) + length tokens.
Proof.
  induction tokens as [|t ts IH]; intros out stk Hin; cbn [fold_left length].
  - cbn [fst snd]. split; [assumption | lia].
  - destruct (@core_step_bound out stk t Hin) as [H1 H2].
    destruct (core_step is_operand (out, stk) t) as [out1 stk1]. cbn [fst snd] in *.
    destruct (IH out1 stk1 H1) as [H3 H4]. split; [assumption|].
    rewrite !length_app in *. lia.
Qed.

(** The postfix output has no [')'] and is no longer than the tokens. *)
Lemma shunting_yard_bound (tokens : list str) :
  ~ In (py ")") (fst (shunting_yard_with is_operand tokens))
  /\ length (fst (shunting_yard_with is_operand tokens)) <= length tokens.
Proof.
  rewrite shunting_yard_core.
  apply (@core_fold_bound tokens [] []). intros [].
Qed.




End CoreCounts.

Lemma regex_paren_not_operand :
  Regex.is_operand (py "(") = false /\ Regex.is_operand (py ")") = false.
Proof. split; vm_compute; reflexivity. Qed.

Lemma simp_paren_not_operand :
  Simp.is_operand (py "(") = false /\ Simp.is_operand (py ")") = false.
Proof. split; vm_compute; reflexivity. Qed.

(** X7. The converter neither loses nor repeats a token it uses: every
    operand and every operator token occurs in the postfix output exactly
    as often as among the input tokens. *)
Theorem shunting_yard_keeps_counts (x : str) (tokens : list str) :
  Regex.is_operand x = true \/ is_operator x = true ->
  count_token x (fst (Regex.shunting_yard tokens)) = count_token x tokens
  /\ count_token x (fst (Simp.shunting_yard tokens)) = count_token x tokens.
Proof.
  intros Hx. split.
  - apply shunting_yard_count; [apply regex_paren_not_operand .. | exact Hx].
  - apply shunting_yard_count; [apply simp_paren_not_operand .. |].
    rewrite <- is_operand_regex_simp. exact Hx.
Qed.

Lemma shunting_yard_keeps_counts_witness :
  count_token (py ".")
    (fst (Regex.shunting_yard [py "("; py "a"; py "."; py "b"; py ")"; py "."; py "c"]))
  = 2
  /\ count_token (py ".")
       (fst (Simp.shunting_yard [py "("; py "a"; py "."; py "b"; py ")"; py "."; py "c"]))
     = 2.
Proof.
  apply (@shunting_yard_keeps_counts (py ".")
           [py "("; py "a"; py "."; py "b"; py ")"; py "."; py "c"]).
  right. vm_compute. reflexivity.
Defined.

(** X8. The postfix output never holds a [')'], and it has at most as many
    tokens as the input. *)
Theorem shunting_yard_no_rparen (tokens : list str) :
  (~ In (py ")") (fst (Regex.shunting_yard tokens))
   /\ length (fst (Regex.shunting_yard tokens)) <= length tokens)
  /\ (~ In (py ")") (fst (Simp.shunting_yard tokens))
      /\ length (fst (Simp.shunting_yard tokens)) <= length tokens).
Proof.
  split; apply shunting_yard_bound;
    first [apply regex_paren_not_operand | apply simp_paren_not_operand].
Qed.


(** *** The trace *)

Section Trace.

Variable is_operand : str -> bool.

Lemma pop_for_rparen_pasos (stk : list str) :
  forall out ps, exists extra, pasos (pop_for_rparen out stk ps) = ps ++ extra.
Proof.
  induction stk as [|op stk IH]; intros out ps; cbn [pop_for_rparen].
  - exists []. now rewrite app_nil_r.
  - destruct (negb (str_eqb op (py "("))).
    + destruct (IH (out ++ [op])
                  (ps ++ [snapshot (py "pop for )") (out ++ [op]) stk]))
        as [extra ->].
      eexists. now rewrite <- app_assoc.
    + exists []. now rewrite app_nil_r.
Qed.

Lemma pop_ops_pasos (token : str) (stk : list str) :
  forall out ps, exists extra, pasos (pop_ops token out stk ps) = ps ++ extra.
Proof.
  induction stk as [|top stk IH]; intros out ps; cbn [pop_ops].
  - exists []. now rewrite app_nil_r.
  - destruct (precedence token <=? precedence top);
      [|exists []; now rewrite app_nil_r].
    destruct (str_eqb top (py "(")); [exists []; now rewrite app_nil_r|].
    destruct (IH (out ++ [top])
                (ps ++ [snapshot (py "pop op " ++ top) (out ++ [top]) stk]))
      as [extra ->].
    eexists. now rewrite <- app_assoc.
Qed.

(** Each token adds records to the trace, the last of which shows the
    output and the stack as the token leaves them. *)
Lemma sy_step_pasos (st : sy_state) (token : str) :
  exists extra label,
    pasos (sy_step is_operand st token)
    = (pasos st ++ extra)
      ++ [snapshot label (output (sy_step is_operand st token))
            (stack (sy_step is_operand st token))].
Proof.
  destruct st as [out stk ps]. unfold sy_step. cbn [pasos].
  destruct (is_operand token).
  { exists [], (py "operand " ++ token). now rewrite app_nil_r. }
  destruct (str_eqb token (py "(")).
  { exists [], (py "push ("). now rewrite app_nil_r. }
  destruct (str_eqb token (py ")")).
  - destruct (pop_for_rparen_pasos stk out ps) as [extra E].
    destruct (pop_for_rparen out stk ps) as [out1 stk1 ps1]. cbn [pasos] in E.
    subst ps1. destruct stk1 as [|top stk2].
    + now exists extra, (py "ignore unmatched )").
    + destruct (str_eqb top (py "(")).
      * now exists extra, (py "pop (").
      * now exists extra, (py "ignore unmatched )").
  - destruct (str_in token [py "|"; py "."; py "*"; py "+"; py "?"]).
    + destruct (pop_ops_pasos token stk out ps) as [extra E].
      destruct (pop_ops token out stk ps) as [out1 stk1 ps1]. cbn [pasos] in E.
      subst ps1. now exists extra, (py "push op " ++ token).
    + exists [], (py "ignore " ++ token). now rewrite app_nil_r.
Qed.

Lemma sy_fold_pasos_length (tokens : list str) :
  forall st,
    length (pasos st) + length tokens
    <= length (pasos (fold_left (sy_step is_operand) tokens st)).
Proof.
  induction tokens as [|t ts IH]; intros st; cbn [fold_left length]; [lia|].
  specialize (IH (sy_step is_operand st t)).
  destruct (sy_step_pasos st t) as (extra & label & E). rewrite E in IH.
  rewrite !length_app in IH. cbn [length] in IH. lia.
Qed.

Lemma pop_end_pasos (stk : list str) :
  forall out ps label, exists extra label',
    pasos (pop_end out stk (ps ++ [snapshot label out stk]))
    = (ps ++ extra) ++ [(label', out ++ stk, [])].
Proof.
  induction stk as [|op stk IH]; intros out ps label; cbn [pop_end pasos].
  - exists [], label. now rewrite !app_nil_r.
  - destruct (IH (out ++ [op]) (ps ++ [snapshot label out (op :: stk)])
                (py "pop end " ++ op)) as (extra & label' & ->).
    exists (snapshot label out (op :: stk) :: extra), label'.
    rewrite <- (app_assoc ps [snapshot label out (op :: stk)] extra).
    rewrite <- (app_assoc out [op] stk). reflexivity.
Qed.

Lemma pop_end_pasos_length (stk : list str) :
  forall out ps, length ps <= length (pasos (pop_end out stk ps)).
Proof.
  induction stk as [|op stk IH]; intros out ps; cbn [pop_end pasos]; [lia|].
  etransitivity; [|apply IH]. rewrite length_app. lia.
Qed.

(** For at least one token, the last record of the trace shows the postfix
    output that is returned and an empty stack; and the trace has at least
    one record per token. *)
Lemma shunting_yard_last_paso (tokens : list str) :
  tokens <> [] ->
  (exists earlier label,
     snd (shunting_yard_with is_operand tokens)
     = earlier ++ [(label, fst (shunting_yard_with is_operand tokens), [])])
  /\ length tokens <= length (snd (shunting_yard_with is_operand tokens)).
Proof.
  intros Hne. split.
  - rewrite shunting_yard_output. unfold shunting_yard_with, sy_loop. cbn [snd].
    destruct (exists_last Hne) as (ts & t & ->). rewrite fold_left_app.
    cbn [fold_left].
    set (st := fold_left (sy_step is_operand) ts (mk_sy [] [] [])).
    destruct (sy_step_pasos st t) as (extra & label & ->).
    destruct (pop_end_pasos (stack (sy_step is_operand st t))
                (output (sy_step is_operand st t)) (pasos st ++ extra) label)
      as (extra' & label' & ->).
    now eexists _, label'.
  - unfold shunting_yard_with, sy_loop. cbn [snd].
    etransitivity; [|apply pop_end_pasos_length].
    apply (sy_fold_pasos_length tokens (mk_sy [] [] [])).
Qed.

End Trace.

(** X10. The trace ends on the result: for at least one token, its last
    record carries the postfix output that [shunting_yard] returns together
    with an empty stack, and it has one record or more per token. *)
Theorem shunting_yard_trace_end (tokens : list str) :
  tokens <> [] ->
  (exists earlier label,
     snd (Regex.shunting_yard tokens)
     = earlier ++ [(label, fst (Regex.shunting_yard tokens), [])])
  /\ length tokens <= length (snd (Regex.shunting_yard tokens)).
Proof. apply shunting_yard_last_paso. Qed.

Lemma shunting_yard_trace_end_witness :
  (exists earlier label,
     snd (Regex.shunting_yard [py "a"; py "|"; py "b"])
     = earlier ++ [(label, fst (Regex.shunting_yard [py "a"; py "|"; py "b"]), [])])
  /\ 3 <= length (snd (Regex.shunting_yard [py "a"; py "|"; py "b"])).
Proof.
  apply (@shunting_yard_trace_end [py "a"; py "|"; py "b"]). discriminate.
Defined.

(** ** The quantifier expander, continued *)

Lemma render_rewrite :
  (forall u, render_unit (rewrite_unit u) = expanded_unit u)
  /\ (forall e, render_units (rewrite_units e) = expanded_units e).
Proof.
  apply regex_unit_units_ind; try reflexivity.
  - intros body IH. cbn [rewrite_unit render_unit expanded_unit]. now rewrite IH.
  - intros u IHu q rest IHrest. cbn [rewrite_units expanded_units].
    destruct q as [[|]|]; cbn [render_units render_unit render_quantifier quantified];
      rewrite ?IHu, ?IHrest, ?app_nil_r; cbn [app].
    + change (py "*") with [star]. now rewrite <- !app_assoc.
    + change (py "(") with [lparen]. change (py "|ε)") with [bar; epsilon; rparen].
      cbn [app]. now rewrite <- !app_assoc.
    + reflexivity.
Qed.

Lemma wf_rewrite :
  (forall u, wf_unit u = true -> wf_unit (rewrite_unit u) = true)
  /\ (forall e, wf_units e = true -> wf_units (rewrite_units e) = true).
Proof.
  apply regex_unit_units_ind; try (intros; assumption).
  - intros body IH H. cbn [rewrite_unit wf_unit] in *. now apply IH.
  - intros u IHu q rest IHrest H. cbn [wf_units] in H.
    apply andb_true_iff in H as [Hu Hrest].
    specialize (IHu Hu). specialize (IHrest Hrest).
    destruct q as [[|]|]; cbn [rewrite_units wf_units wf_unit];
      rewrite IHu, IHrest; reflexivity.
Qed.

Lemma quantifier_free_rewrite :
  (forall u, quantifier_free_unit (rewrite_unit u) = true)
  /\ (forall e, quantifier_free (rewrite_units e) = true).
Proof.
  apply regex_unit_units_ind; try reflexivity.
  - intros body IH. exact IH.
  - intros u IHu q rest IHrest.
    destruct q as [[|]|];
      cbn [rewrite_units quantifier_free quantifier_free_unit];
      rewrite IHu, IHrest; reflexivity.
Qed.

Lemma expanded_quantifier_free :
  (forall u, quantifier_free_unit u = true -> expanded_unit u = render_unit u)
  /\ (forall e, quantifier_free e = true -> expanded_units e = render_units e).
Proof.
  apply regex_unit_units_ind; try reflexivity.
  - intros body IH H. cbn [quantifier_free_unit] in H.
    cbn [expanded_unit render_unit]. now rewrite (IH H).
  - intros u IHu q rest IHrest H. destruct q as [q|]; [discriminate|].
    cbn [quantifier_free] in H. apply andb_true_iff in H as [Hu Hrest].
    cbn [expanded_units render_units quantified render_quantifier app].
    now rewrite (IHu Hu), (IHrest Hrest).
Qed.

(** X11. An expression without quantifiers comes back unchanged: on a
    sequence of units none of which is followed by ['+'] or ['?'], groups
    and escapes included, [expand_plus_question] returns its input. *)
Theorem expand_plus_question_quantifier_free (e : units) :
  wf_units e = true -> quantifier_free e = true ->
  Simp.expand_plus_question (render_units e) = Ok (render_units e).
Proof.
  intros Hwf Hq. rewrite (expand_plus_question_spec e Hwf).
  now rewrite (proj2 expanded_quantifier_free e Hq).
Qed.

Lemma expand_plus_question_quantifier_free_witness :
  Simp.expand_plus_question (py "(a|b\+)*c") = Ok (py "(a|b\+)*c").
Proof.
  apply (expand_plus_question_quantifier_free
           (UCons (Grp (UCons (Lit 97%N) None
                          (UCons (Lit bar) None
                             (UCons (Lit 98%N) None
                                (UCons (Esc plus) None UNil)))))
                  None
                  (UCons (Lit star) None (UCons (Lit 99%N) None UNil))));
    reflexivity.
Defined.

(** X12. Expanding twice is expanding once: on every well-formed sequence
    of units, what [expand_plus_question] returns is a string that it
    returns unchanged. *)
Theorem expand_plus_question_idempotent (e : units) :
  wf_units e = true ->
  exists expr2,
    Simp.expand_plus_question (render_units e) = Ok expr2
    /\ Simp.expand_plus_question expr2 = Ok expr2.
Proof.
  intros Hwf. exists (expanded_units e). split.
  - now apply expand_plus_question_spec.
  - rewrite <- (proj2 render_rewrite e).
    rewrite (expand_plus_question_spec _ (proj2 wf_rewrite e Hwf)).
    now rewrite (proj2 expanded_quantifier_free _ (proj2 quantifier_free_rewrite e)).
Qed.

Lemma expand_plus_question_idempotent_witness :
  exists expr2,
    Simp.expand_plus_question (py "(a+b)?") = Ok expr2
    /\ Simp.expand_plus_question expr2 = Ok expr2.
Proof.
  apply (expand_plus_question_idempotent
           (UCons (Grp (UCons (Lit 97%N) (Some QPlus)
                          (UCons (Lit 98%N) None UNil)))
                  (Some QQuestion) UNil)).
  reflexivity.
Defined.

(** X13. A group that is never closed loses its last character: on ['(']
    followed by a well-formed sequence of units and one more character
    that is not [')'], the scan for the end of the group runs to the end
    of the string, the interior is cut one character short, and the result
    is the expansion of the units between parentheses. *)
Theorem expand_plus_question_unclosed_group (e : units) (c : char) :
  wf_units e = true -> char_eqb c rparen = false ->
  Simp.expand_plus_question (lparen :: render_units e ++ [c])
  = Ok (py "(" ++ expanded_units e ++ py ")").
Proof.
  intros Hwf Hc. unfold Simp.expand_plus_question.
  set (expr := lparen :: render_units e ++ [c]).
  assert (Hn : length expr = S (length (render_units e) + 1)).
  { unfold expr. cbn [length]. now rewrite length_app. }
  assert (Hscan : Simp.scan_group (length expr) expr 1 1
                  = Ok (length expr, snd (scan false (render_units e ++ [c]) 1))).
  { change (Simp.scan_group (length expr) ([lparen] ++ (render_units e ++ [c]))
              (length [lparen]) 1
            = Ok (length expr, snd (scan false (render_units e ++ [c]) 1))).
    rewrite scan_group_spec by (rewrite Hn, length_app; cbn [length]; lia).
    change (odd_run [lparen]) with false.
    rewrite (proj2 scan_render e Hwf). cbn [fst snd]. f_equal. f_equal.
    rewrite Hn. cbn [scan]. rewrite Hc. cbn [fst length].
    destruct (char_eqb c lparen && negb false);
      destruct (char_eqb c backslash); cbn [andb scan fst]; lia. }
  assert (Hunit : Simp.read_unit
                    (fun inner => Simp.expand_loop (length (render_units e) + 1) inner 0 [])
                    expr 0
                  = Ok (py "(" ++ expanded_units e ++ py ")", length expr)).
  { unfold Simp.read_unit. change (get expr 0) with (@Ok char lparen). cbn [bind].
    change (char_eqb lparen backslash) with false.
    change (char_eqb lparen lparen) with true. cbn [andb].
    pose proof (and_not_escaped_spec true [] expr) as Ha.
    cbn [app length] in Ha. rewrite Ha. change (odd_run []) with false.
    cbn [bind negb andb].
    change (0 + 1) with 1. rewrite Hscan. cbn [bind fst].
    replace (slice expr 1 (length expr - 1)) with (render_units e).
    - pose proof (@expand_loop_units (length (render_units e) + 1) e [] []
                    Hwf eq_refl) as Hloop.
      cbn [app length] in Hloop. rewrite Hloop by lia. reflexivity.
    - rewrite Hn. unfold expr.
      replace (S (length (render_units e) + 1) - 1)
        with (length [lparen] + length (render_units e)) by (cbn [length]; lia).
      apply (eq_sym (slice_middle [lparen] (render_units e) [c])). }
  rewrite Hn at 1. cbn [Simp.expand_loop].
  replace (0 <? length expr) with true by (symmetry; apply Nat.ltb_lt; lia).
  rewrite Hunit. cbn [bind].
  unfold Simp.quantifier_follows. rewrite Nat.ltb_irrefl. cbn [bind].
  destruct (length (render_units e) + 1); cbn [Simp.expand_loop];
    rewrite Nat.ltb_irrefl; reflexivity.
Qed.

Lemma expand_plus_question_unclosed_group_witness :
  Simp.expand_plus_question (py "(a+b") = Ok (py "(aa*)").
Proof.
  apply (expand_plus_question_unclosed_group
           (UCons (Lit 97%N) (Some QPlus) UNil) 98%N);
    reflexivity.
Defined.

(** X14. The second script is the first one behind the expander: on every
    line, [expand_plus_question] returns a string, and the tree (or the
    failure) of the pipeline of [shunting_yard_simp.py] is that of the
    pipeline of [shunting_yard_regex.py] on this string. *)
Theorem simp_pipeline_is_regex_after_expansion (expr : str) :
  exists expr2,
    Simp.expand_plus_question expr = Ok expr2
    /\ Simp.pipeline expr = Regex.pipeline expr2.
Proof.
  destruct (expand_plus_question_total expr) as [expr2 E]. exists expr2.
  split; [assumption|]. unfold Simp.pipeline, Regex.pipeline. rewrite E.
  cbn [bind]. destruct (insert_concatenation expr2) as [tokens| |]; cbn [bind];
    try reflexivity.
  unfold Simp.shunting_yard, Regex.shunting_yard.
  rewrite (shunting_yard_with_ext Regex.is_operand Simp.is_operand
             is_operand_regex_simp tokens).
  reflexivity.
Qed.

(** ** A string of letters, end to end *)

Lemma alnum_not_special (c : char) :
  char_isalnum c = true ->
  forallb (fun x => negb (char_eqb c x))
    [backslash; bar; lparen; rparen; star; plus; question; dot] = true.
Proof.
  intros H. cbn [forallb]. rewrite !andb_true_iff.
  repeat split; apply negb_true_iff;
    match goal with |- char_eqb c ?x = false =>
      destruct (char_eqb c x) eqn:E; [|reflexivity];
      apply char_eqb_eq in E; subst c; vm_compute in H; discriminate
    end.
Qed.

Lemma alnum_plain (c : char) : char_isalnum c = true -> plain_char c = true.
Proof.
  intros H. apply alnum_not_special in H. cbn [forallb] in H.
  rewrite !andb_true_iff, !negb_true_iff in H.
  destruct H as (H1 & H2 & H3 & H4 & H5 & H6 & H7 & _).
  unfold plain_char. cbn [existsb]. now rewrite H1, H2, H3, H4, H5, H6, H7.
Qed.

Lemma alnum_operand (c : char) :
  char_isalnum c = true ->
  Regex.is_operand [c] = true /\ arity [c] = 0.
Proof.
  intros H. split.
  - unfold Regex.is_operand, isalnum. cbn [length forallb Nat.eqb].
    rewrite H. cbn [andb orb]. apply orb_true_r.
  - apply alnum_not_special in H. cbn [forallb] in H.
    rewrite !andb_true_iff, !negb_true_iff in H.
    destruct H as (_ & H2 & _ & _ & H5 & H6 & H7 & H8 & _).
    unfold arity, str_in.
    change (py "*") with [star]. change (py "+") with [plus].
    change (py "?") with [question]. change (py ".") with [dot].
    change (py "|") with [bar]. cbn [existsb str_eqb].
    now rewrite H2, H5, H6, H7, H8.
Qed.

Lemma dotted_cons (tok : str) (todo : list str) :
  dotted (tok :: todo) = tok :: concat (map (fun x => [py "."; x]) todo).
Proof.
  revert tok. induction todo as [|x todo IH]; intros tok; [reflexivity|].
  cbn [dotted map concat app]. now rewrite <- IH.
Qed.

(** Each further operand of a chain of concatenations sends the pending
    ['.'] to the output before it. *)
Lemma core_fold_chain (todo : list str) :
  forall out,
    forallb Regex.is_operand todo = true ->
    fold_left (core_step Regex.is_operand)
      (concat (map (fun x => [py "."; x]) todo)) (out, [py "."])
    = (out ++ concat (map (fun x => [py "."; x]) todo), [py "."]).
Proof.
  induction todo as [|x todo IH]; intros out H; cbn [map concat fold_left app].
  - now rewrite app_nil_r.
  - cbn [forallb] in H. apply andb_true_iff in H as [Hx Htodo].
    change (core_step Regex.is_operand (out, [py "."]) (py "."))
      with (out ++ [py "."], [py "."]).
    assert (E : core_step Regex.is_operand (out ++ [py "."], [py "."]) x
                = ((out ++ [py "."]) ++ [x], [py "."])).
    { unfold core_step. now rewrite Hx. }
    rewrite E, (IH _ Htodo). f_equal. now rewrite <- !app_assoc.
Qed.

Lemma chain_postfix (x : str) (todo : list str) :
  (x :: concat (map (fun y => [py "."; y]) todo)) ++ [py "."]
  = concat (map (fun y => [y; py "."]) (x :: todo)).
Proof.
  revert x. induction todo as [|y todo IH]; intros x; [reflexivity|].
  cbn [map concat app] in *. f_equal. f_equal. apply IH.
Qed.

Lemma shunting_yard_chain (tok : str) (todo : list str) :
  forallb Regex.is_operand (tok :: todo) = true ->
  fst (Regex.shunting_yard (dotted (tok :: todo)))
  = tok :: concat (map (fun y => [y; py "."]) todo).
Proof.
  cbn [forallb]. rewrite andb_true_iff. intros [Htok Htodo].
  unfold Regex.shunting_yard. rewrite shunting_yard_core, dotted_cons.
  cbn [fold_left].
  assert (E0 : core_step Regex.is_operand ([], []) tok = ([tok], [])).
  { unfold core_step. now rewrite Htok. }
  rewrite E0. destruct todo as [|x todo]; [reflexivity|].
  cbn [forallb] in Htodo. apply andb_true_iff in Htodo as [Hx Htodo].
  cbn [map concat app fold_left].
  change (core_step Regex.is_operand ([tok], []) (py "."))
    with ([tok], [py "."]).
  assert (E1 : core_step Regex.is_operand ([tok], [py "."]) x
               = ([tok; x], [py "."])).
  { unfold core_step. now rewrite Hx. }
  rewrite E1, (core_fold_chain todo [tok; x] Htodo). cbn [fst snd app].
  f_equal. apply (chain_postfix x todo).
Qed.

Lemma to_postfix_concat_left (tokens : list str) :
  forall t,
    to_postfix (concat_left t tokens)
    = to_postfix t ++ concat (map (fun y => [y; py "."]) tokens).
Proof.
  unfold concat_left.
  induction tokens as [|y tokens IH]; intros t; cbn [fold_left map concat].
  - now rewrite app_nil_r.
  - rewrite IH. cbn [to_postfix leaf app]. now rewrite <- !app_assoc.
Qed.

Lemma wf_concat_left (tokens : list str) :
  forall t,
    wf_node t = true -> forallb (fun y => arity y =? 0) tokens = true ->
    wf_node (concat_left t tokens) = true.
Proof.
  unfold concat_left.
  induction tokens as [|y tokens IH]; intros t Ht H; cbn [fold_left];
    [assumption|].
  cbn [forallb] in H. apply andb_true_iff in H as [Hy H].
  apply IH; [|assumption]. cbn [wf_node leaf].
  change (arity (py ".") =? 2) with true. now rewrite Ht, Hy.
Qed.

Lemma lit_units_facts (cs : str) :
  forallb char_isalnum cs = true ->
  render_units (lit_units cs) = cs /\ wf_units (lit_units cs) = true
  /\ quantifier_free (lit_units cs) = true.
Proof.
  induction cs as [|c cs IH]; [now repeat split|].
  cbn [forallb]. rewrite andb_true_iff. intros [Hc Hcs].
  destruct (IH Hcs) as (E1 & E2 & E3).
  cbn [lit_units render_units render_unit render_quantifier app wf_units wf_unit
       quantifier_free quantifier_free_unit].
  rewrite E1, E2, E3. repeat split; try reflexivity.
  rewrite andb_true_r. apply alnum_not_special in Hc. cbn [forallb] in Hc.
  rewrite !andb_true_iff, !negb_true_iff in Hc.
  destruct Hc as (H1 & _ & H3 & H4 & _ & H6 & H7 & _).
  unfold unit_char. cbn [existsb]. now rewrite H1, H3, H4, H6, H7.
Qed.

Lemma simp_expansion_of_letters (expr : str) :
  forallb char_isalnum expr = true ->
  Simp.expand_plus_question expr = Ok expr
  /\ Simp.pipeline expr = Regex.pipeline expr.
Proof.
  intros H. destruct (lit_units_facts expr H) as (E1 & E2 & E3).
  assert (Hexp : Simp.expand_plus_question expr = Ok expr).
  { rewrite <- E1 at 1. rewrite (expand_plus_question_spec _ E2).
    now rewrite (proj2 expanded_quantifier_free _ E3), E1. }
  split; [assumption|]. unfold Simp.pipeline, Regex.pipeline. rewrite Hexp.
  cbn [bind]. destruct (insert_concatenation expr) as [tokens| |]; cbn [bind];
    try reflexivity.
  unfold Simp.shunting_yard, Regex.shunting_yard.
  now rewrite (shunting_yard_with_ext Regex.is_operand Simp.is_operand
                 is_operand_regex_simp tokens).
Qed.

(** X15. Concatenation nests to the left, end to end: on a string of
    letters and digits [c1 c2 ... cn] both pipelines return the tree
    [((c1 . c2) . ...) . cn]. *)
Theorem pipeline_letters (c : char) (cs : str) :
  forallb char_isalnum (c :: cs) = true ->
  Regex.pipeline (c :: cs) = Ok (concat_left (leaf [c]) (map (fun x => [x]) cs))
  /\ Simp.pipeline (c :: cs) = Ok (concat_left (leaf [c]) (map (fun x => [x]) cs)).
Proof.
  intros H.
  assert (Hplain : forallb plain_char (c :: cs) = true).
  { apply forallb_forall. intros x Hx. apply alnum_plain.
    now apply (proj1 (forallb_forall _ _) H). }
  assert (Hops : forallb Regex.is_operand (map (fun x => [x]) (c :: cs)) = true).
  { apply forallb_forall. intros t Ht. apply in_map_iff in Ht as (x & <- & Hx).
    apply alnum_operand. now apply (proj1 (forallb_forall _ _) H). }
  assert (Har : forallb (fun y => arity y =? 0) (map (fun x => [x]) (c :: cs)) = true).
  { apply forallb_forall. intros t Ht. apply in_map_iff in Ht as (x & <- & Hx).
    apply Nat.eqb_eq, alnum_operand. now apply (proj1 (forallb_forall _ _) H). }
  assert (Hregex : Regex.pipeline (c :: cs)
                   = Ok (concat_left (leaf [c]) (map (fun x => [x]) cs))).
  { unfold Regex.pipeline.
    rewrite insert_concatenation_spec, (tokens_of_plain _ Hplain).
    cbn [forallb] in Hplain. apply andb_true_iff in Hplain as [Hc Hcs].
    change (with_dots (map (fun c0 => [c0]) (c :: cs)))
      with ([c] :: dots_from [c] (map (fun x => [x]) cs)).
    pose proof (dots_from_plain cs c Hc Hcs) as Hd. cbv beta in Hd.
    rewrite Hd. cbn [bind map].
    pose proof (shunting_yard_chain [c] (map (fun x => [x]) cs) Hops) as E.
    match goal with
    | |- context [Regex.shunting_yard ?t] =>
        destruct (Regex.shunting_yard t) as [postfix trace] eqn:Esy
    end.
    apply (f_equal fst) in Esy. cbn [fst] in Esy.
    assert (Epost : postfix
                    = to_postfix (concat_left (leaf [c]) (map (fun x => [x]) cs)))
      by (rewrite <- Esy, to_postfix_concat_left; exact E).
    subst postfix.
    cbn [map forallb] in Har. apply andb_true_iff in Har as [Hc0 Hcs0].
    unfold build_syntax_tree. rewrite Epost.
    rewrite <- (app_nil_r (to_postfix _)), build_loop_to_postfix; [reflexivity|].
    apply wf_concat_left; [|assumption]. cbn [wf_node leaf]. exact Hc0. }
  split; [assumption|].
  destruct (simp_expansion_of_letters (c :: cs) H) as [Hexp Hpipe].
  now rewrite Hpipe.
Qed.

Lemma pipeline_letters_witness :
  Regex.pipeline (py "ab1")
  = Ok (mkRegexNode (py ".")
          (Some (mkRegexNode (py ".") (Some (leaf (py "a"))) (Some (leaf (py "b")))))
          (Some (leaf (py "1"))))
  /\ Simp.pipeline (py "ab1")
     = Ok (mkRegexNode (py ".")
             (Some (mkRegexNode (py ".") (Some (leaf (py "a"))) (Some (leaf (py "b")))))
             (Some (leaf (py "1")))).
Proof.
  apply (@pipeline_letters 97%N [98%N; 49%N]). vm_compute. reflexivity.
Defined.

(** ** The graph *)

Lemma node_stmts_app (a b : list stmt) :
  node_stmts (a ++ b) = node_stmts a ++ node_stmts b.
Proof.
  induction a as [|[n l|t h] a IH]; cbn [app node_stmts]; [reflexivity| |assumption].
  now rewrite IH.
Qed.

Lemma edge_stmts_app (a b : list stmt) :
  edge_stmts (a ++ b) = edge_stmts a ++ edge_stmts b.
Proof.
  induction a as [|[n l|t h] a IH]; cbn [app edge_stmts]; [reflexivity|assumption|].
  now rewrite IH.
Qed.

Lemma edge_between_weaken (lo hi lo' hi' : nat) (e : str * str) :
  lo' <= lo -> hi <= hi' -> edge_between lo hi e -> edge_between lo' hi' e.
Proof.
  intros Hlo Hhi (i & j & H1 & H2 & H3 & ->). exists i, j. repeat split; lia.
Qed.

Lemma node_size_pos (n : RegexNode) : 1 <= node_size n.
Proof. destruct n. cbn [node_size]. lia. Qed.

(** What [visit] adds to the graph, in both scripts at once. *)
Lemma visit_spec (node : RegexNode) :
  forall count dot dot', exists added,
    Regex.visit node count dot
    = (node_id count, (count + node_size node, dot ++ added))
    /\ Simp.visit node count dot'
       = (node_id count, (count + node_size node, dot' ++ map flip_stmt added))
    /\ map fst (node_stmts added) = map node_id (seq count (node_size node))
    /\ map snd (node_stmts added) = preorder node
    /\ length (edge_stmts added) = node_size node - 1
    /\ Forall (edge_between count (count + node_size node)) (edge_stmts added).
Proof.
  induction node as [v l r IHl IHr] using RegexNode_induction.
  intros count dot dot'.
  cbn [Regex.visit Simp.visit node_size preorder].
  fold (node_id count).
  (* the left child *)
  assert (Hl : exists addl sl,
    sl = match l with Some a => node_size a | None => 0 end
    /\ (match l with
        | Some node_left =>
            let '(lid, (count2, dot2)) :=
              Regex.visit node_left (count + 1) (dot ++ [node_stmt (node_id count) v]) in
            (count2, dot2 ++ [edge_stmt (node_id count) lid])
        | None => (count + 1, dot ++ [node_stmt (node_id count) v])
        end)
       = (count + 1 + sl, (dot ++ [node_stmt (node_id count) v]) ++ addl)
    /\ (match l with
        | Some node_left =>
            let '(lid, (count2, dot2)) :=
              Simp.visit node_left (count + 1) (dot' ++ [node_stmt (node_id count) v]) in
            (count2, dot2 ++ [edge_stmt lid (node_id count)])
        | None => (count + 1, dot' ++ [node_stmt (node_id count) v])
        end)
       = (count + 1 + sl,
          (dot' ++ [node_stmt (node_id count) v]) ++ map flip_stmt addl)
    /\ map fst (node_stmts addl) = map node_id (seq (count + 1) sl)
    /\ map snd (node_stmts addl) = match l with Some a => preorder a | None => [] end
    /\ length (edge_stmts addl) = sl
    /\ Forall (edge_between count (count + 1 + sl)) (edge_stmts addl)).
  { destruct l as [a|]; cbn [on_child] in IHl.
    - destruct (IHl (count + 1) (dot ++ [node_stmt (node_id count) v])
                  (dot' ++ [node_stmt (node_id count) v]))
        as (added & -> & -> & H1 & H2 & H3 & H4).
      exists (added ++ [edge_stmt (node_id count) (node_id (count + 1))]),
        (node_size a).
      pose proof (node_size_pos a).
      rewrite node_stmts_app, edge_stmts_app, map_app, !app_assoc.
      cbn [node_stmts edge_stmts map flip_stmt]. rewrite !app_nil_r, length_app.
      cbn [length]. repeat split; try assumption; try lia.
      apply Forall_app. split.
      + eapply Forall_impl; [|exact H4]. intros e.
        apply edge_between_weaken; lia.
      + repeat constructor. exists count, (count + 1). repeat split; lia.
    - exists [], 0. rewrite !app_nil_r, Nat.add_0_r. repeat split; constructor. }
  destruct Hl as (addl & sl & Esl & -> & -> & Hl1 & Hl2 & Hl3 & Hl4).
  cbn [fst snd].
  (* the right child *)
  destruct r as [b|]; cbn [on_child] in IHr.
  - destruct (IHr (count + 1 + sl) ((dot ++ [node_stmt (node_id count) v]) ++ addl)
                ((dot' ++ [node_stmt (node_id count) v]) ++ map flip_stmt addl))
      as (addr & -> & -> & Hr1 & Hr2 & Hr3 & Hr4).
    pose proof (node_size_pos b).
    exists (node_stmt (node_id count) v
            :: addl ++ addr ++ [edge_stmt (node_id count) (node_id (count + 1 + sl))]).
    rewrite <- Esl.
    replace (count + (1 + sl + node_size b)) with (count + 1 + sl + node_size b)
      by lia.
    cbn [map flip_stmt node_stmts edge_stmts].
    rewrite !map_app, !node_stmts_app, !edge_stmts_app, !map_app.
    cbn [map flip_stmt node_stmts edge_stmts fst snd].
    rewrite !app_nil_r, !length_app. cbn [length].
    repeat split.
    + now rewrite <- !app_assoc.
    + now rewrite <- !app_assoc.
    + rewrite Hl1, Hr1. cbn [seq Nat.add map]. rewrite seq_app, map_app.
      replace (count + 1) with (S count) by lia.
      replace (S count + sl) with (S count + sl) by lia. reflexivity.
    + now rewrite Hl2, Hr2.
    + lia.
    + apply Forall_app. split; [|apply Forall_app; split].
      * eapply Forall_impl; [|exact Hl4]. intros e. apply edge_between_weaken; lia.
      * eapply Forall_impl; [|exact Hr4]. intros e. apply edge_between_weaken; lia.
      * repeat constructor. exists count, (count + 1 + sl). repeat split; lia.
  - exists (node_stmt (node_id count) v :: addl). rewrite <- Esl.
    replace (count + (1 + sl + 0)) with (count + 1 + sl) by lia.
    cbn [map flip_stmt node_stmts edge_stmts fst snd].
    repeat split.
    + now rewrite <- !app_assoc.
    + now rewrite <- !app_assoc.
    + rewrite Hl1. replace (1 + sl + 0) with (S sl) by lia. cbn [seq map].
      now replace (count + 1) with (S count) by lia.
    + now rewrite Hl2, app_nil_r.
    + lia.
    + eapply Forall_impl; [|exact Hl4]. intros e. apply edge_between_weaken; lia.
Qed.

(** X16. The graph of a tree has one node statement per tree node, named
    [n0], [n1], ... in the order of a preorder walk and labelled with the
    node values; there is one edge less than there are nodes, and every
    edge goes from a node to one numbered higher. *)
Theorem visualize_with_graphviz_graph (root : RegexNode) (filename : str) :
  let g := snd (Regex.visualize_with_graphviz root filename) in
  fst (Regex.visualize_with_graphviz root filename) = filename
  /\ map fst (node_stmts (body g)) = map node_id (seq 0 (node_size root))
  /\ map snd (node_stmts (body g)) = preorder root
  /\ length (edge_stmts (body g)) = node_size root - 1
  /\ Forall (edge_between 0 (node_size root)) (edge_stmts (body g)).
Proof.
  unfold Regex.visualize_with_graphviz.
  destruct (visit_spec root 0 [] []) as (added & -> & _ & H1 & H2 & H3 & H4).
  cbn [fst snd body app]. auto.
Qed.

(** X17. The two scripts draw the same graph with the edges turned round:
    the statements of [visualize_with_graphviz] in [shunting_yard_simp.py]
    are those of [shunting_yard_regex.py], in the same order, each edge
    from the child to its node instead of from the node to its child. *)
Theorem visualize_with_graphviz_flipped (root : RegexNode) (filename : str) :
  Simp.visualize_with_graphviz root filename
  = (filename,
     mk_Digraph (py "png") [(py "rankdir", py "BT")]
       (map flip_stmt (body (snd (Regex.visualize_with_graphviz root filename))))).
Proof.
  unfold Simp.visualize_with_graphviz, Regex.visualize_with_graphviz.
  destruct (visit_spec root 0 [] []) as (added & -> & -> & _).
  reflexivity.
Qed.

(** ** The loop over the lines *)

Lemma regex_procesar_skip (lineas : list str) :
  forall idx,
    Regex.procesar_lineas (filter (fun l => negb (skipped l)) lineas) idx
    = Regex.procesar_lineas lineas idx.
Proof.
  induction lineas as [|l ls IH]; intros idx; [reflexivity|].
  cbn [filter Regex.procesar_lineas]. fold (skipped l).
  destruct (skipped l) eqn:E; cbn [negb]; [apply IH|].
  cbn [Regex.procesar_lineas]. fold (skipped l). rewrite E.
  destruct (Regex.pipeline (strip l)); try reflexivity. now rewrite IH.
Qed.

Lemma simp_procesar_skip (lineas : list str) :
  forall idx,
    Simp.procesar_lineas (filter (fun l => negb (skipped l)) lineas) idx
    = Simp.procesar_lineas lineas idx.
Proof.
  induction lineas as [|l ls IH]; intros idx; [reflexivity|].
  cbn [filter Simp.procesar_lineas]. fold (skipped l).
  destruct (skipped l) eqn:E; cbn [negb]; [apply IH|].
  cbn [Simp.procesar_lineas]. fold (skipped l). rewrite E.
  destruct (Simp.pipeline (strip l)); try reflexivity. now rewrite IH.
Qed.

(** X18. Blank lines and comment lines count for nothing: a run on the
    lines of a file makes the calls, with the file names, and ends the way
    of a run on the lines that are left when every line that is empty or
    starts with ['#'] once stripped is taken out. *)
Theorem procesar_archivo_skips (lineas : list str) :
  Regex.procesar_archivo (filter (fun l => negb (skipped l)) lineas)
  = Regex.procesar_archivo lineas
  /\ Simp.procesar_archivo (filter (fun l => negb (skipped l)) lineas)
     = Simp.procesar_archivo lineas.
Proof. split; [apply regex_procesar_skip | apply simp_procesar_skip]. Qed.

Lemma regex_visualize_fst (root : RegexNode) (filename : str) :
  fst (Regex.visualize_with_graphviz root filename) = filename.
Proof.
  unfold Regex.visualize_with_graphviz.
  now destruct (Regex.visit root 0 []) as [nid [count dot]].
Qed.

Lemma simp_visualize_fst (root : RegexNode) (filename : str) :
  fst (Simp.visualize_with_graphviz root filename) = filename.
Proof.
  unfold Simp.visualize_with_graphviz.
  now destruct (Simp.visit root 0 []) as [nid [count dot]].
Qed.

Lemma regex_procesar_names (lineas : list str) :
  forall idx,
    map fst (fst (Regex.procesar_lineas lineas idx))
    = map (fun k => py "tree_" ++ str_of_nat k)
        (seq idx (length (fst (Regex.procesar_lineas lineas idx)))).
Proof.
  induction lineas as [|l ls IH]; intros idx; [reflexivity|].
  cbn [Regex.procesar_lineas].
  destruct ((length (strip l) =? 0) || startswith_hash (strip l)); [apply IH|].
  destruct (Regex.pipeline (strip l)); try reflexivity.
  specialize (IH (idx + 1)).
  destruct (Regex.procesar_lineas ls (idx + 1)) as [calls r].
  cbn [fst map length seq] in *. rewrite IH, regex_visualize_fst.
  now replace (idx + 1) with (S idx) by lia.
Qed.

Lemma simp_procesar_names (lineas : list str) :
  forall idx,
    map fst (fst (Simp.procesar_lineas lineas idx))
    = map (fun k => py "tree_simplified_" ++ str_of_nat k)
        (seq idx (length (fst (Simp.procesar_lineas lineas idx)))).
Proof.
  induction lineas as [|l ls IH]; intros idx; [reflexivity|].
  cbn [Simp.procesar_lineas].
  destruct ((length (strip l) =? 0) || startswith_hash (strip l)); [apply IH|].
  destruct (Simp.pipeline (strip l)); try reflexivity.
  specialize (IH (idx + 1)).
  destruct (Simp.procesar_lineas ls (idx + 1)) as [calls r].
  cbn [fst map length seq] in *. rewrite IH, simp_visualize_fst.
  now replace (idx + 1) with (S idx) by lia.
Qed.

(** X19. The files are numbered by the lines that are rendered, not by the
    lines of the file: the calls of a run go, in order, to [tree_1],
    [tree_2], ... ([tree_simplified_1], ... in the second script), with no
    gap for the lines passed over. *)
Theorem procesar_archivo_names (lineas : list str) :
  map fst (fst (Regex.procesar_archivo lineas))
  = map (fun k => py "tree_" ++ str_of_nat k)
      (seq 1 (length (fst (Regex.procesar_archivo lineas))))
  /\ map fst (fst (Simp.procesar_archivo lineas))
     = map (fun k => py "tree_simplified_" ++ str_of_nat k)
         (seq 1 (length (fst (Simp.procesar_archivo lineas)))).
Proof. split; [apply regex_procesar_names | apply simp_procesar_names]. Qed.

Lemma regex_procesar_app (pre : list str) :
  forall post idx calls,
    Regex.procesar_lineas pre idx = (calls, Ok tt) ->
    Regex.procesar_lineas (pre ++ post) idx
    = (calls ++ fst (Regex.procesar_lineas post (idx + length calls)),
       snd (Regex.procesar_lineas post (idx + length calls))).
Proof.
  induction pre as [|l ls IH]; intros post idx calls; cbn [app Regex.procesar_lineas].
  - intros H. injection H as <-. cbn [app length]. rewrite Nat.add_0_r.
    now destruct (Regex.procesar_lineas post idx).
  - destruct ((length (strip l) =? 0) || startswith_hash (strip l)); [apply IH|].
    destruct (Regex.pipeline (strip l)) as [root| |]; try discriminate.
    destruct (Regex.procesar_lineas ls (idx + 1)) as [calls1 r1] eqn:E.
    intros H. injection H as <- ->. rewrite (IH post (idx + 1) calls1 E).
    cbn [app length]. now replace (idx + 1 + length calls1) with (idx + S (length calls1)) by lia.
Qed.

(** X20. The first line that fails ends the run: when the lines before it
    are rendered without failure and the pipeline raises on it, the run
    ends with that exception, having made the calls for the lines before
    and none for the lines after. *)
Theorem procesar_archivo_stops (pre post : list str) (linea : str)
  (calls : list (str * Digraph)) (e : exn) :
  Regex.procesar_archivo pre = (calls, Ok tt) ->
  skipped linea = false ->
  Regex.pipeline (strip linea) = Raise e ->
  Regex.procesar_archivo (pre ++ linea :: post) = (calls, Raise e).
Proof.
  unfold Regex.procesar_archivo. intros Hpre Hskip Hraise.
  rewrite (regex_procesar_app pre (linea :: post) 1 Hpre).
  cbn [Regex.procesar_lineas]. fold (skipped linea). rewrite Hskip, Hraise.
  cbn [fst snd]. now rewrite app_nil_r.
Qed.

Lemma procesar_archivo_stops_witness :
  Regex.procesar_archivo ([py "ab"; py "# a comment"] ++ py "a|" :: [py "cd"])
  = ([Regex.visualize_with_graphviz
        (mkRegexNode (py ".") (Some (leaf (py "a"))) (Some (leaf (py "b"))))
        (py "tree_1")],
     Raise IndexError).
Proof.
  apply (@procesar_archivo_stops [py "ab"; py "# a comment"] [py "cd"] (py "a|")
           [Regex.visualize_with_graphviz
              (mkRegexNode (py ".") (Some (leaf (py "a"))) (Some (leaf (py "b"))))
              (py "tree_1")]
           IndexError);
    vm_compute; reflexivity.
Defined.

(** ** Parentheses around a balanced expression *)

Section Frame.

Variable is_operand : str -> bool.
Hypothesis lparen_not_operand : is_operand (py "(") = false.
Hypothesis rparen_not_operand : is_operand (py ")") = false.

Lemma count_lparen_cons (t : str) (l : list str) :
  count_token (py "(") (t :: l)
  = (if str_eqb t (py "(") then 1 else 0) + count_token (py "(") l.
Proof.
  unfold count_token. cbn [filter].
  destruct (str_eqb t (py "(")) eqn:E.
  - apply str_eqb_eq in E. subst t. now rewrite str_eqb_refl.
  - destruct (str_eqb (py "(") t) eqn:E'; [|reflexivity].
    apply str_eqb_eq in E'. subst t. now rewrite str_eqb_refl in E.
Qed.

(** With a ['('] on the stack, the loop of the [')'] branch stops at the
    first one, whatever lies beneath. *)
Lemma core_pop_for_rparen_frame (stk : list str) :
  forall out below,
    0 < count_token (py "(") stk ->
    core_pop_for_rparen out (stk ++ below)
    = (fst (core_pop_for_rparen out stk), snd (core_pop_for_rparen out stk) ++ below)
    /\ exists stk2,
         snd (core_pop_for_rparen out stk) = py "(" :: stk2
         /\ count_token (py "(") stk = S (count_token (py "(") stk2).
Proof.
  induction stk as [|op stk IH]; intros out below H.
  - cbv in H. lia.
  - rewrite count_lparen_cons in H |- *. cbn [app core_pop_for_rparen].
    destruct (str_eqb op (py "(")) eqn:E; cbn [negb fst snd].
    + apply str_eqb_eq in E. subst op. split; [reflexivity|]. now exists stk.
    + apply IH. exact H.
Qed.

(** The loop of the operator branch never goes below a ['(']. *)
Lemma core_pop_ops_frame (token : str) (stk : list str) :
  forall out below,
    core_pop_ops token out (stk ++ py "(" :: below)
    = (fst (core_pop_ops token out stk),
       snd (core_pop_ops token out stk) ++ py "(" :: below)
    /\ count_token (py "(") (snd (core_pop_ops token out stk))
       = count_token (py "(") stk.
Proof.
  induction stk as [|top stk IH]; intros out below.
  - cbn [app core_pop_ops fst snd]. change (str_eqb (py "(") (py "(")) with true.
    now destruct (precedence token <=? precedence (py "(")).
  - cbn [app core_pop_ops]. destruct (precedence token <=? precedence top);
      [|now split].
    destruct (str_eqb top (py "(")) eqn:E; [now split|].
    destruct (IH (out ++ [top]) below) as [-> ->]. split; [reflexivity|].
    now rewrite count_lparen_cons, E.
Qed.

(** One token, on a stack that holds as many ['('] as are open, leaves what
    lies beneath a ['('] alone. *)
Lemma core_step_frame (out stk below : list str) (token : str) :
  (str_eqb token (py ")") = true -> 0 < count_token (py "(") stk) ->
  core_step is_operand (out, stk ++ py "(" :: below) token
  = (fst (core_step is_operand (out, stk) token),
     snd (core_step is_operand (out, stk) token) ++ py "(" :: below)
  /\ count_token (py "(") (snd (core_step is_operand (out, stk) token))
     = (if str_eqb token (py "(") then S (count_token (py "(") stk)
        else if str_eqb token (py ")") then count_token (py "(") stk - 1
        else count_token (py "(") stk).
Proof.
  intros Hdepth. unfold core_step.
  destruct (is_operand token) eqn:Eop.
  { cbn [fst snd]. split; [reflexivity|].
    destruct (str_eqb token (py "(")) eqn:E1.
    { apply str_eqb_eq in E1. subst token. congruence. }
    destruct (str_eqb token (py ")")) eqn:E2; [|reflexivity].
    apply str_eqb_eq in E2. subst token. congruence. }
  destruct (str_eqb token (py "(")) eqn:E1.
  { cbn [fst snd]. split; [reflexivity|]. now rewrite count_lparen_cons, E1. }
  destruct (str_eqb token (py ")")) eqn:E2.
  - destruct (core_pop_for_rparen_frame stk out (py "(" :: below) (Hdepth eq_refl))
      as (-> & stk2 & E & Hc).
    destruct (core_pop_for_rparen out stk) as [out1 stk1]. cbn [fst snd] in *.
    subst stk1. cbn [app]. change (str_eqb (py "(") (py "(")) with true.
    cbn [fst snd]. split; [reflexivity | lia].
  - destruct (str_in token [py "|"; py "."; py "*"; py "+"; py "?"]).
    + destruct (core_pop_ops_frame token stk out below) as [-> Hc].
      destruct (core_pop_ops token out stk) as [out1 stk1]. cbn [fst snd] in *.
      split; [reflexivity|]. now rewrite count_lparen_cons, E1.
    + now split.
Qed.

Lemma core_fold_frame (tokens : list str) :
  forall out stk below,
    balanced_from (count_token (py "(") stk) tokens = true ->
    fold_left (core_step is_operand) tokens (out, stk ++ py "(" :: below)
    = (fst (fold_left (core_step is_operand) tokens (out, stk)),
       snd (fold_left (core_step is_operand) tokens (out, stk)) ++ py "(" :: below)
    /\ count_token (py "(")
         (snd (fold_left (core_step is_operand) tokens (out, stk))) = 0.
Proof.
  induction tokens as [|t ts IH]; intros out stk below H;
    cbn [fold_left balanced_from] in *.
  - apply Nat.eqb_eq in H. now split.
  - assert (Hd : str_eqb t (py ")") = true -> 0 < count_token (py "(") stk).
    { intros E. destruct (str_eqb t (py "(")) eqn:E1.
      - apply str_eqb_eq in E1, E. subst t. discriminate.
      - rewrite E in H. destruct (count_token (py "(") stk); [discriminate | lia]. }
    destruct (core_step_frame out stk below t Hd) as [-> Hc].
    destruct (core_step is_operand (out, stk) t) as [out1 stk1]. cbn [fst snd] in *.
    apply IH. rewrite Hc.
    destruct (str_eqb t (py "(")); [assumption|].
    destruct (str_eqb t (py ")")); [|assumption].
    destruct (count_token (py "(") stk) as [|d]; [discriminate|].
    now rewrite Nat.sub_succ, Nat.sub_0_r.
Qed.

Lemma core_pop_for_rparen_all (stk : list str) :
  forall out,
    count_token (py "(") stk = 0 ->
    core_pop_for_rparen out (stk ++ [py "("]) = (out ++ stk, [py "("]).
Proof.
  induction stk as [|op stk IH]; intros out H.
  - cbn [app core_pop_for_rparen]. change (str_eqb (py "(") (py "(")) with true.
    cbn [negb]. now rewrite app_nil_r.
  - rewrite count_lparen_cons in H. cbn [app core_pop_for_rparen].
    destruct (str_eqb op (py "(")); [discriminate|]. cbn [negb].
    rewrite IH by exact H. now rewrite <- app_assoc.
Qed.

(** A pair of parentheses around balanced tokens leaves the postfix output
    as it is. *)
Lemma shunting_yard_parenthesised (tokens : list str) :
  balanced_from 0 tokens = true ->
  fst (shunting_yard_with is_operand (py "(" :: tokens ++ [py ")"]))
  = fst (shunting_yard_with is_operand tokens).
Proof.
  intros H. rewrite !shunting_yard_core. cbn [fold_left].
  rewrite fold_left_app. cbn [fold_left].
  assert (E0 : core_step is_operand ([], []) (py "(") = ([], [py "("])).
  { unfold core_step. now rewrite lparen_not_operand. }
  rewrite E0.
  destruct (core_fold_frame tokens [] [] [] H) as [E Hc]. cbn [app] in E.
  rewrite E.
  destruct (fold_left (core_step is_operand) tokens ([], [])) as [out stk].
  cbn [fst snd] in *. unfold core_step. rewrite rparen_not_operand.
  change (str_eqb (py ")") (py "(")) with false.
  change (str_eqb (py ")") (py ")")) with true. cbv iota.
  rewrite (core_pop_for_rparen_all stk out Hc).
  change (str_eqb (py "(") (py "(")) with true. cbn [fst snd].
  now rewrite app_nil_r.
Qed.

End Frame.

(** X21. Parentheses around a balanced expression change nothing: when the
    parentheses among the tokens match one another, the postfix output of
    the tokens between one more ['('] and [')'] is the postfix output of
    the tokens. *)
Theorem shunting_yard_outer_parentheses (tokens : list str) :
  balanced_from 0 tokens = true ->
  fst (Regex.shunting_yard (py "(" :: tokens ++ [py ")"]))
  = fst (Regex.shunting_yard tokens)
  /\ fst (Simp.shunting_yard (py "(" :: tokens ++ [py ")"]))
     = fst (Simp.shunting_yard tokens).
Proof.
  intros H. split; apply shunting_yard_parenthesised;
    first [exact H | apply regex_paren_not_operand | apply simp_paren_not_operand].
Qed.

Lemma shunting_yard_outer_parentheses_witness :
  fst (Regex.shunting_yard
         (py "(" :: [py "a"; py "|"; py "("; py "b"; py "."; py "c"; py ")"; py "*"]
            ++ [py ")"]))
  = fst (Regex.shunting_yard
           [py "a"; py "|"; py "("; py "b"; py "."; py "c"; py ")"; py "*"])
  /\ fst (Simp.shunting_yard
            (py "(" :: [py "a"; py "|"; py "("; py "b"; py "."; py "c"; py ")"; py "*"]
               ++ [py ")"]))
     = fst (Simp.shunting_yard
              [py "a"; py "|"; py "("; py "b"; py "."; py "c"; py ")"; py "*"]).
Proof.
  apply (@shunting_yard_outer_parentheses
           [py "a"; py "|"; py "("; py "b"; py "."; py "c"; py ")"; py "*"]).
  reflexivity.
Defined.

Lemma tokens_of_snoc (n : nat) (c : char) :
  forall pre suf : str,
    length suf <= n ->
    odd_run pre = false ->
    odd_run (pre ++ suf) = false ->
    tokens_of (suf ++ [c]) = tokens_of suf ++ [[c]].
Proof.
  induction n as [n IH] using lt_wf_ind.
  intros pre [|d suf] Hn Hpre Hall.
  - cbn [app tokens_of]. now destruct (char_eqb c backslash).
  - cbn [app tokens_of]. destruct (char_eqb d backslash) eqn:Ed.
    + destruct suf as [|d' suf].
      * rewrite odd_run_snoc, Ed, Hpre in Hall. discriminate.
      * cbn [app]. f_equal.
        apply (IH (length suf)) with (pre := pre ++ [d; d']).
        -- simpl in Hn. lia.
        -- lia.
        -- change [d; d'] with ([d] ++ [d']).
           rewrite app_assoc, !odd_run_snoc, Ed, Hpre.
           now destruct (char_eqb d' backslash).
        -- now rewrite <- app_assoc.
    + cbn [app]. f_equal. apply (IH (length suf)) with (pre := pre ++ [d]).
      * simpl in Hn. lia.
      * lia.
      * now rewrite odd_run_snoc, Ed.
      * now rewrite <- app_assoc.
Qed.

Lemma dots_from_lparen (tokens : list str) :
  dots_from (py "(") tokens = with_dots tokens.
Proof. destruct tokens as [|t ts]; reflexivity. Qed.

Lemma dots_from_rparen (tokens : list str) :
  forall prev,
    dots_from prev (tokens ++ [py ")"]) = dots_from prev tokens ++ [py ")"].
Proof.
  induction tokens as [|t ts IH]; intros prev; cbn [app dots_from].
  - unfold needs_dot. change (str_in (py ")") _) with true.
    cbn [negb]. now rewrite andb_false_r.
  - now rewrite IH, app_comm_cons, app_assoc.
Qed.

Lemma with_dots_parenthesised (tokens : list str) :
  with_dots (py "(" :: tokens ++ [py ")"]) = py "(" :: with_dots tokens ++ [py ")"].
Proof.
  cbn [with_dots]. rewrite dots_from_rparen, dots_from_lparen. reflexivity.
Qed.

(** X22. Parentheses around a whole expression give the same tree: when
    the tokens of an expression, dots inserted, have matching parentheses
    and the expression does not end in a backslash that escapes nothing,
    the pipeline of [shunting_yard_regex.py] returns on the expression
    between ['('] and [')'] what it returns on the expression. *)
Theorem pipeline_outer_parentheses (expr : str) (tokens : list str) :
  insert_concatenation expr = Ok tokens ->
  balanced_from 0 tokens = true ->
  odd_run expr = false ->
  Regex.pipeline (lparen :: expr ++ [rparen]) = Regex.pipeline expr.
Proof.
  rewrite insert_concatenation_spec. intros E Hbal Hodd. injection E as <-.
  assert (Et : tokens_of (lparen :: expr ++ [rparen])
               = py "(" :: tokens_of expr ++ [py ")"]).
  { cbn [tokens_of]. change (char_eqb lparen backslash) with false. cbv iota.
    now rewrite (@tokens_of_snoc (length expr) rparen [] expr (le_n _) eq_refl Hodd). }
  unfold Regex.pipeline.
  rewrite !insert_concatenation_spec, Et, with_dots_parenthesised. cbn [bind].
  pose proof (@shunting_yard_parenthesised Regex.is_operand
                (proj1 regex_paren_not_operand) (proj2 regex_paren_not_operand)
                (with_dots (tokens_of expr)) Hbal) as Esy.
  unfold Regex.shunting_yard.
  destruct (shunting_yard_with Regex.is_operand
              (py "(" :: with_dots (tokens_of expr) ++ [py ")"])) as [post1 tr1].
  destruct (shunting_yard_with Regex.is_operand (with_dots (tokens_of expr)))
    as [post2 tr2].
  cbn [fst] in Esy. now subst post1.
Qed.

Lemma pipeline_outer_parentheses_witness :
  Regex.pipeline (lparen :: py "a|(bc)*" ++ [rparen]) = Regex.pipeline (py "a|(bc)*").
Proof.
  apply (@pipeline_outer_parentheses (py "a|(bc)*")
           [py "a"; py "|"; py "("; py "b"; py "."; py "c"; py ")"; py "*"]);
    reflexivity.
Defined.
